(** * SOTA Internal Link Engine v3.0.0: a shallow embedding

    This development embeds [src/lib/sota/SOTAInternalLinkEngine.ts]
    (the v3.0.0 engine: paragraph extractor, stemmer, anchor finder,
    greedy selector, link injector and link counter) and proves
    properties of it.  The file also holds the earlier contextual
    engine; its helpers on strings and on the catalog are embedded in
    the module [Contextual].

    Conventions of the embedding.
    - A JavaScript string is its sequence of UTF-16 code units; the
      embedding covers the strings whose code units are below 256
      (Latin-1), one [ascii] per code unit.  On that alphabet
      [toLowerCase] keeps the length, [\s] is TAB, LF, VT, FF, CR, SPACE
      and NBSP, [\w] is [A-Za-z0-9_], and the [i] flag of a regular
      expression identifies exactly the two cases of a letter.
      Beyond that alphabet [toLowerCase] can change the length of a
      string (U+0130 becomes two code units), which shifts the offsets
      that the fallback of [findBestAnchor] takes from the lower-cased
      text; the lemmas that rest on the length
      ([toLowerCase_length] and what follows from it) are facts of
      this alphabet, and the theorems that use them say so.
    - A [number] that holds a count or an offset is a [nat] or a [Z];
      a score is an IEEE 754 binary64 [float], as in JavaScript.
    - A [Set] is the list of its elements in insertion order.
    - An absent optional string of an [InternalLink] is the empty
      string: the code reads those fields through [||] only. *)

From Stdlib Require Import String Ascii List ZArith NArith Lia Bool Arith.
From Stdlib Require Import Sorting.Sorted Floats Uint63.
Import ListNotations.

Coercion list_ascii_of_string : string >-> list.
Local Open Scope string_scope.
Local Open Scope list_scope.
Local Open Scope bool_scope.
Local Open Scope nat_scope.

(** ** Strings *)

Module JS.

Definition str := list ascii.

Definition code (c : ascii) : N := N_of_ascii c.

Definition between (lo hi : N) (c : ascii) : bool :=
  (N.leb lo (code c) && N.leb (code c) hi)%bool.

(** [String.prototype.toLowerCase] on one Latin-1 code unit. *)
Definition lowerChar (c : ascii) : ascii :=
  if between 65 90 c then ascii_of_N (code c + 32)
  else if (between 192 222 c && negb (N.eqb (code c) 215))%bool
       then ascii_of_N (code c + 32)
  else c.

Definition toLowerCase (s : str) : str := map lowerChar s.

(** The class [\s], which is also what [trim] removes. *)
Definition isSpace (c : ascii) : bool :=
  (between 9 13 c || N.eqb (code c) 32 || N.eqb (code c) 160)%bool.

(** The class [a-z]. *)
Definition isLowerAZ (c : ascii) : bool := between 97 122 c.

Definition isDigit (c : ascii) : bool := between 48 57 c.

(** The class [\w] that decides [\b]. *)
Definition isWord (c : ascii) : bool :=
  (between 97 122 c || between 65 90 c || isDigit c
   || N.eqb (code c) 95)%bool.

Fixpoint eqb (a b : str) : bool :=
  match a, b with
  | [], [] => true
  | x :: a', y :: b' => (Ascii.eqb x y && eqb a' b')%bool
  | _, _ => false
  end.

Definition has (set : list str) (x : str) : bool := existsb (eqb x) set.

(** [s.startsWith(p)]. *)
Fixpoint startsWith (p s : str) : bool :=
  match p, s with
  | [], _ => true
  | x :: p', y :: s' => (Ascii.eqb x y && startsWith p' s')%bool
  | _ :: _, [] => false
  end.

Definition endsWith (s suffix : str) : bool :=
  startsWith (rev suffix) (rev s).

(** [s.slice(0, -n)]. *)
Definition dropLast (n : nat) (s : str) : str := firstn (length s - n) s.

(** [s.substring(a, b)] for [a <= b]. *)
Definition substring (s : str) (a b : nat) : str := firstn (b - a) (skipn a s).

(** [a.slice(i, j)] on an array. *)
Definition slice {A} (a : list A) (i j : nat) : list A :=
  firstn (j - i) (skipn i a).

(** [a.join(' ')]. *)
Fixpoint joinSp (a : list str) : str :=
  match a with
  | [] => []
  | [w] => w
  | w :: rest => w ++ " "%char :: joinSp rest
  end.

Fixpoint dropSpaces (s : str) : str :=
  match s with
  | c :: t => if isSpace c then dropSpaces t else s
  | [] => []
  end.

Definition trim (s : str) : str := rev (dropSpaces (rev (dropSpaces s))).

(** [s.split(/\s+/)]: the pieces between the maximal runs of white
    space; a run at either end leaves an empty piece there, and the
    empty string gives one empty piece. *)
Fixpoint splitWs (s : str) : list str :=
  match s with
  | [] => [[]]
  | c :: t =>
      if isSpace c then
        match t with
        | c' :: _ => if isSpace c' then splitWs t else [] :: splitWs t
        | [] => [] :: splitWs t
        end
      else
        match splitWs t with
        | w :: rest => (c :: w) :: rest
        | [] => [[c]]
        end
  end.

(** [s.indexOf(p)]. *)
Fixpoint indexOf (p s : str) : option nat :=
  if startsWith p s then Some 0
  else match s with
       | [] => None
       | _ :: t => option_map S (indexOf p t)
       end.

(** [s.replace(/<[^>]*>/g, '')]: a [<] opens a tag when some [>]
    follows it, and the tag ends at the first one. *)
Fixpoint stripTagsFrom (inTag : bool) (s : str) : str :=
  match s with
  | [] => []
  | c :: t =>
      if inTag then stripTagsFrom (negb (Ascii.eqb c ">"%char)) t
      else if (Ascii.eqb c "<"%char && existsb (Ascii.eqb ">"%char) t)%bool
           then stripTagsFrom true t
      else c :: stripTagsFrom false t
  end.

Definition stripTags (s : str) : str := stripTagsFrom false s.

(** [/<a\s/i.test(s)]. *)
Fixpoint testAnchorTag (s : str) : bool :=
  match s with
  | c1 :: ((c2 :: c3 :: _) as t) =>
      (Ascii.eqb c1 "<"%char && Ascii.eqb (lowerChar c2) "a"%char && isSpace c3
       || testAnchorTag t)%bool
  | _ => false
  end.

(** [n] as a JavaScript number. *)
Definition num (n : nat) : float := PrimFloat.of_uint63 (Uint63.of_Z (Z.of_nat n)).

(** [Math.min(a, b)]. *)
Definition min (a b : float) : float :=
  if (PrimFloat.is_nan a || PrimFloat.is_nan b)%bool then PrimFloat.nan
  else if PrimFloat.ltb b a then b else a.

End JS.

(** ** Types *)

Record SitePage := {
  url : JS.str;
  title : JS.str;
  keywords : option (list JS.str);
  slug : option JS.str;
  description : option JS.str;
  content : option JS.str
}.

Record ParagraphInfo := {
  html : JS.str;
  text : JS.str;
  index : nat;
  wordCount : Z;
  cumulativeWords : Z;
  hasLink : bool;
  startOffset : nat;
  endOffset : nat
}.

Record ScoredCandidate := {
  paragraph : ParagraphInfo;
  page : SitePage;
  anchor : JS.str;
  score : float
}.

(** The fields of [InternalLink] that the engine writes or reads. *)
Record InternalLink := {
  link_anchor : JS.str;
  link_anchorText : JS.str;
  link_targetUrl : JS.str;
  link_url : JS.str;
  link_text : JS.str;
  link_context : JS.str;
  link_priority : float;
  link_relevanceScore : float
}.

(** ** Helpers *)

Definition STOP : list JS.str := map list_ascii_of_string [
  "a"; "an"; "the"; "and"; "or"; "but"; "in"; "on"; "at"; "to"; "for";
  "of"; "with"; "by"; "from"; "as"; "is"; "was"; "are"; "were"; "be";
  "have"; "has"; "had"; "do"; "does"; "did"; "will"; "would"; "could";
  "should"; "may"; "might"; "can"; "this"; "that"; "these"; "those";
  "i"; "me"; "my"; "we"; "our"; "you"; "your"; "he"; "him"; "his";
  "she"; "her"; "it"; "its"; "they"; "them"; "their"; "what"; "which";
  "who"; "how"; "when"; "where"; "why"; "not"; "no"; "so"; "if";
  "than"; "too"; "very"; "just"; "about"; "all"; "also"; "any"; "been";
  "being"; "both"; "each"; "few"; "more"; "most"; "other"; "some";
  "such"; "into"; "out"; "up"; "down"; "new"; "way"; "much"; "even";
  "only"; "own"; "here"; "there"
]%string.

(** [word.toLowerCase().replace(/[^a-z]/g, '')]. *)
Definition lettersOf (word : JS.str) : JS.str :=
  filter JS.isLowerAZ (JS.toLowerCase word).

Definition stem (word : JS.str) : JS.str :=
  let w := lettersOf word in
  let n := length w in
  if n <=? 3 then w
  else if JS.endsWith w "ing" && (5 <? n) then JS.dropLast 3 w
  else if JS.endsWith w "tion" && (6 <? n) then JS.dropLast 4 w
  else if JS.endsWith w "ness" && (6 <? n) then JS.dropLast 4 w
  else if JS.endsWith w "ment" && (6 <? n) then JS.dropLast 4 w
  else if JS.endsWith w "able" && (6 <? n) then JS.dropLast 4 w
  else if JS.endsWith w "ies" && (4 <? n) then JS.dropLast 3 w ++ "y"
  else if JS.endsWith w "es" && (4 <? n) then JS.dropLast 2 w
  else if JS.endsWith w "ed" && (4 <? n) then JS.dropLast 2 w
  else if JS.endsWith w "s" && negb (JS.endsWith w "ss") && (3 <? n)
       then JS.dropLast 1 w
  else if JS.endsWith w "ly" && (4 <? n) then JS.dropLast 2 w
  else w.

(** The class [[a-z0-9\s'-]], and the same under the [i] flag. *)
Definition isTokenChar (c : ascii) : bool :=
  JS.isLowerAZ c || JS.isDigit c || JS.isSpace c
  || Ascii.eqb c "'"%char || Ascii.eqb c "-"%char.

Definition isTokenCharI (c : ascii) : bool :=
  isTokenChar c || JS.between 65 90 c.

Definition blankUnless (keep : ascii -> bool) (s : JS.str) : JS.str :=
  map (fun c => if keep c then c else " "%char) s.

Definition significantTokens (text : JS.str) : list JS.str :=
  map stem
    (filter (fun w => (2 <? length w) && negb (JS.has STOP w))
       (JS.splitWs (blankUnless isTokenChar (JS.toLowerCase text)))).

(** *** Paragraph extraction

    The regular expression [/<p[^>]*>([\s\S]*?)<\/p>/gi] is matched as
    the engine matches it: at each start position in turn, [<p], the
    characters up to the first [>], then the shortest text that
    [</p>] follows. *)

(** [[^>]*>]: the characters before the first [>], and what follows it. *)
Fixpoint splitGt (s : JS.str) : option (JS.str * JS.str) :=
  match s with
  | [] => None
  | c :: t =>
      if Ascii.eqb c ">"%char then Some ([], t)
      else match splitGt t with
           | Some (a, r) => Some (c :: a, r)
           | None => None
           end
  end.

(** Whether [</p>] (either case) starts here. *)
Definition atCloseP (s : JS.str) : bool :=
  match s with
  | c1 :: c2 :: c3 :: c4 :: _ =>
      Ascii.eqb c1 "<"%char && Ascii.eqb c2 "/"%char
      && Ascii.eqb (JS.lowerChar c3) "p"%char && Ascii.eqb c4 ">"%char
  | _ => false
  end.

(** [[\s\S]*?<\/p>]: the text before the first [</p>], that tag, and
    the rest. *)
Fixpoint splitCloseP (s : JS.str) : option (JS.str * JS.str * JS.str) :=
  if atCloseP s then Some ([], firstn 4 s, skipn 4 s)
  else match s with
       | [] => None
       | c :: t =>
           match splitCloseP t with
           | Some (inner, close, r) => Some (c :: inner, close, r)
           | None => None
           end
       end.

(** Whether [<p] (either case) starts here, and what follows it. *)
Definition openP (s : JS.str) : option (JS.str * JS.str) :=
  match s with
  | c1 :: c2 :: t =>
      if Ascii.eqb c1 "<"%char && Ascii.eqb (JS.lowerChar c2) "p"%char
      then Some ([c1; c2], t) else None
  | _ => None
  end.

(** One attempt of the paragraph expression at the head of [s]:
    the match [m[0]] and the text after it. *)
Definition matchParagraphAt (s : JS.str) : option (JS.str * JS.str) :=
  match openP s with
  | Some (lt_p, t) =>
      match splitGt t with
      | Some (attrs, body) =>
          match splitCloseP body with
          | Some (inner, close, rest) =>
              Some (lt_p ++ attrs ++ ">"%char :: inner ++ close, rest)
          | None => None
          end
      | None => None
      end
  | None => None
  end.

(** [re.exec] from the head of [s]: [m.index] (relative to [s]),
    [m[0]] and the text after the match. *)
Fixpoint execParagraph (s : JS.str) : option (nat * JS.str * JS.str) :=
  match matchParagraphAt s with
  | Some (m0, rest) => Some (0, m0, rest)
  | None =>
      match s with
      | [] => None
      | _ :: t =>
          match execParagraph t with
          | Some (i, m0, rest) => Some (S i, m0, rest)
          | None => None
          end
      end
  end.

Definition nonEmpty (w : JS.str) : bool := negb (length w =? 0).

Definition countWords (text : JS.str) : Z :=
  Z.of_nat (length (filter nonEmpty (JS.splitWs text))).

(** The [while] loop of [extractParagraphs]; [s] is what lies after
    [re.lastIndex], which is [off].  Every round consumes a match, so
    [length s] rounds are enough (see [extractLoop_fuel]). *)
Fixpoint extractLoop (fuel : nat) (s : JS.str) (off idx : nat) (cumWords : Z)
  : list ParagraphInfo :=
  match fuel with
  | 0 => []
  | S fuel' =>
      match execParagraph s with
      | None => []
      | Some (i, m0, rest) =>
          let text := JS.trim (JS.stripTags m0) in
          let wc := countWords text in
          let cumWords' := (cumWords + wc)%Z in
          {| html := m0;
             text := text;
             index := idx;
             wordCount := wc;
             cumulativeWords := cumWords';
             hasLink := JS.testAnchorTag m0;
             startOffset := off + i;
             endOffset := off + i + length m0 |}
          :: extractLoop fuel' rest (off + i + length m0) (S idx) cumWords'
      end
  end.

Definition extractParagraphs (html : JS.str) : list ParagraphInfo :=
  extractLoop (length html) html 0 0 0%Z.

(** *** The anchor finder *)

Definition Best : Type := option (JS.str * float).

(** [!best || score > best.score]. *)
Definition better (best : Best) (score : float) : bool :=
  match best with
  | None => true
  | Some (_, b) => PrimFloat.ltb b score
  end.

(** The body of the two window loops, for one [len] and one [i]. *)
Definition windowStep (words titleStems allTargetStems : list JS.str)
  (len i : nat) (best : Best) : Best :=
  let phrase := JS.joinSp (JS.slice words i (i + len)) in
  let cleaned := JS.trim (blankUnless isTokenCharI phrase) in
  if length cleaned <? 8 then best else
  let phraseStems := significantTokens cleaned in
  if length phraseStems =? 0 then best else
  let firstWord := lettersOf (nth i words []) in
  let lastWord := lettersOf (nth (i + len - 1) words []) in
  if JS.has STOP firstWord || JS.has STOP lastWord then best else
  let overlap := length (filter (JS.has allTargetStems) phraseStems) in
  if overlap =? 0 then best else
  let overlapRatio := (JS.num overlap / JS.num (length phraseStems))%float in
  let titleOverlap := length (filter (JS.has titleStems) phraseStems) in
  let lengthBonus :=
    if (4 <=? len) && (len <=? 6) then 8%float
    else if len =? 3 then 2%float else 0%float in
  let titleBonus := (JS.num titleOverlap * 5)%float in
  let score :=
    (overlapRatio * 40 + JS.num overlap * 8 + lengthBonus + titleBonus)%float in
  if better best score then Some (phrase, score) else best.

Definition windowLoop (words titleStems allTargetStems : list JS.str) : Best :=
  let n := length words in
  fold_left
    (fun best len =>
       fold_left
         (fun best i => windowStep words titleStems allTargetStems len i best)
         (seq 0 (S n - len)) best)
    (seq 3 (Nat.min 7 n - 2)) None.

(** The body of the two fallback loops.  [pos] is an offset in the
    lower-cased text, and the anchor is cut out of [paraText] at that
    offset, over the length of the snippet. *)
Definition fallbackStep (paraText paraLower : JS.str) (titleWords : list JS.str)
  (len i : nat) (best : Best) : Best :=
  let snippet := JS.joinSp (JS.slice titleWords i (i + len)) in
  let snippetLower := JS.toLowerCase snippet in
  match JS.indexOf snippetLower paraLower with
  | Some pos =>
      let actual := JS.substring paraText pos (pos + length snippet) in
      let newScore := (JS.num len * 12 + 10)%float in
      if better best newScore then Some (actual, newScore) else best
  | None => best
  end.

Definition titleWordsOf (title : JS.str) : list JS.str :=
  filter (fun w => 2 <? length w) (JS.splitWs title).

Definition fallbackLoop (paraText : JS.str) (title : JS.str) (best : Best)
  : Best :=
  let titleWords := titleWordsOf title in
  let m := length titleWords in
  let paraLower := JS.toLowerCase paraText in
  fold_left
    (fun best len =>
       fold_left
         (fun best i => fallbackStep paraText paraLower titleWords len i best)
         (seq 0 (S m - len)) best)
    (rev (seq 2 (Nat.min 4 m - 1))) best.

(** [!best || best.score < 15]. *)
Definition needsFallback (best : Best) : bool :=
  match best with
  | None => true
  | Some (_, b) => PrimFloat.ltb b 15
  end.

Definition findBestAnchor (paraText : JS.str) (page : SitePage) : Best :=
  let titleStems := significantTokens (title page) in
  let keywordStems :=
    flat_map significantTokens
      (match keywords page with Some ks => ks | None => [] end) in
  let allTargetStems := titleStems ++ keywordStems in
  if length allTargetStems =? 0 then None else
  let words := JS.splitWs paraText in
  if length words <? 5 then None else
  let best := windowLoop words titleStems allTargetStems in
  let best :=
    if needsFallback best then fallbackLoop paraText (title page) best
    else best in
  match best with
  | Some (_, b) => if PrimFloat.leb 10 b then best else None
  | None => None
  end.

(** ** Engine *)

Record SOTAInternalLinkEngine := { pages : list SitePage }.

(** [this.pages = pages || []], in the constructor and in
    [updateSitePages]. *)
Definition orEmpty (pages : option (list SitePage)) : list SitePage :=
  match pages with Some ps => ps | None => [] end.

Definition newEngine (pages : option (list SitePage)) : SOTAInternalLinkEngine :=
  {| pages := orEmpty pages |}.

Definition updateSitePages (e : SOTAInternalLinkEngine)
  (pages : option (list SitePage)) : SOTAInternalLinkEngine :=
  {| pages := orEmpty pages |}.

(** The candidates one paragraph yields, in catalog order. *)
Definition candidatesOf (ps : list SitePage) (para : ParagraphInfo)
  : list ScoredCandidate :=
  if hasLink para || (wordCount para <? 12)%Z then []
  else
    flat_map
      (fun pg =>
         match findBestAnchor (text para) pg with
         | None => []
         | Some (a, sc) =>
             [{| paragraph := para; page := pg; anchor := a; score := sc |}]
         end)
      ps.

Definition collectCandidates (ps : list SitePage)
  (paragraphs : list ParagraphInfo) : list ScoredCandidate :=
  flat_map (candidatesOf ps) paragraphs.

(** [candidates.sort((a, b) => b.score - a.score)]: [Array.prototype.sort]
    is stable, and the comparator puts [a] after [b] when
    [b.score - a.score > 0]. *)
Definition comesAfter (a b : ScoredCandidate) : bool :=
  PrimFloat.ltb 0 (score b - score a)%float.

Fixpoint insertByScore (c : ScoredCandidate) (sorted : list ScoredCandidate)
  : list ScoredCandidate :=
  match sorted with
  | [] => [c]
  | x :: rest =>
      if comesAfter c x then x :: insertByScore c rest else c :: sorted
  end.

Definition sortByScore (cs : list ScoredCandidate) : list ScoredCandidate :=
  fold_right insertByScore [] cs.

(** The state of the greedy loop.  [selected] holds the accepted
    candidates; the links pushed by the code are their images under
    [toInternalLink]. *)
Record Selection := {
  selected : list ScoredCandidate;
  usedUrls : list JS.str;
  usedParas : list nat;
  lastCumulativeWords : Z
}.

Definition tooClose (st : Selection) (c : ScoredCandidate) : bool :=
  (0 <? lastCumulativeWords st)%Z
  && (cumulativeWords (paragraph c) - lastCumulativeWords st <? 250)%Z.

Definition accept (st : Selection) (c : ScoredCandidate) : Selection :=
  {| selected := selected st ++ [c];
     usedUrls := usedUrls st ++ [url (page c)];
     usedParas := usedParas st ++ [index (paragraph c)];
     lastCumulativeWords := cumulativeWords (paragraph c) |}.

Fixpoint selectLoop (limit : float) (cs : list ScoredCandidate) (st : Selection)
  : Selection :=
  match cs with
  | [] => st
  | c :: rest =>
      if PrimFloat.leb limit (JS.num (length (selected st))) then st
      else if JS.has (usedUrls st) (url (page c)) then selectLoop limit rest st
      else if existsb (Nat.eqb (index (paragraph c))) (usedParas st)
           then selectLoop limit rest st
      else if tooClose st c then selectLoop limit rest st
      else selectLoop limit rest (accept st c)
  end.

Definition emptySelection : Selection :=
  {| selected := []; usedUrls := []; usedParas := [];
     lastCumulativeWords := 0 |}.

Definition toInternalLink (c : ScoredCandidate) : InternalLink :=
  {| link_anchor := anchor c;
     link_anchorText := anchor c;
     link_targetUrl := url (page c);
     link_url := url (page c);
     link_text := anchor c;
     link_context := JS.substring (text (paragraph c)) 0 120;
     link_priority := score c;
     link_relevanceScore := JS.min 100 (score c) |}.

(** The candidates behind the links that [generateLinkOpportunities]
    returns, in the order of the returned list. *)
Definition selectCandidates (e : SOTAInternalLinkEngine) (html : JS.str)
  (maxLinks : option float) : list ScoredCandidate :=
  let limit := match maxLinks with Some n => n | None => 10%float end in
  if length (pages e) =? 0 then []
  else
    let paragraphs := extractParagraphs html in
    let candidates := collectCandidates (pages e) paragraphs in
    selected (selectLoop limit (sortByScore candidates) emptySelection).

Definition generateLinkOpportunities (e : SOTAInternalLinkEngine)
  (html : JS.str) (maxLinks : option float) : list InternalLink :=
  map toInternalLink (selectCandidates e html maxLinks).

(** *** Link injection

    For an anchor the loop builds, with the anchor's special characters
    escaped (so that it stands for itself),
    [(<p[^>]*>)((?:(?!</p>)[\s\S])*?)\b(anchor)\b((?:(?!</p>)[\s\S])*?</p>)]
    under the [i] flag, and takes its first match. *)

Record AnchorMatch := {
  m_pre : JS.str;      (* result.substring(0, match.index) *)
  m_open : JS.str;     (* match[1] *)
  m_before : JS.str;   (* match[2] *)
  m_matched : JS.str;  (* match[3] *)
  m_after : JS.str;    (* match[4] *)
  m_post : JS.str      (* what follows match[0] *)
}.

Definition fullParagraph (m : AnchorMatch) : JS.str :=
  m_open m ++ m_before m ++ m_matched m ++ m_after m.

Definition isWordAt (c : option ascii) : bool :=
  match c with Some x => JS.isWord x | None => false end.

(** [\b] between the character before a position and the one at it. *)
Definition wordBoundary (prev next : option ascii) : bool :=
  xorb (isWordAt prev) (isWordAt next).

(** The literal [p] at the head of [s], under the [i] flag. *)
Fixpoint startsWithI (p s : JS.str) : bool :=
  match p, s with
  | [], _ => true
  | x :: p', y :: s' =>
      Ascii.eqb (JS.lowerChar x) (JS.lowerChar y) && startsWithI p' s'
  | _ :: _, [] => false
  end.

(** [\b(anchor)\b((?:(?!</p>)[\s\S])*?</p>)] at the head of [b], which
    [prev] precedes: [match[3]], [match[4]] and what follows. *)
Definition matchAnchorHere (anchor : JS.str) (prev : ascii) (b : JS.str)
  : option (JS.str * JS.str * JS.str) :=
  let matched := firstn (length anchor) b in
  let rest := skipn (length anchor) b in
  if wordBoundary (Some prev) (hd_error b)
     && startsWithI anchor b
     && wordBoundary (hd_error (rev (prev :: matched))) (hd_error rest)
  then match splitCloseP rest with
       | Some (inner, close, post) => Some (matched, inner ++ close, post)
       | None => None
       end
  else None.

(** [((?:(?!</p>)[\s\S])*?)] followed by the rest of the expression:
    the group grows by one character, never over a [</p>], until the
    rest matches. *)
Fixpoint scanAnchor (anchor : JS.str) (prev : ascii) (b : JS.str)
  : option (JS.str * JS.str * JS.str * JS.str) :=
  match matchAnchorHere anchor prev b with
  | Some (matched, after, post) => Some ([], matched, after, post)
  | None =>
      if atCloseP b then None
      else match b with
           | [] => None
           | c :: b' =>
               match scanAnchor anchor c b' with
               | Some (before, matched, after, post) =>
                   Some (c :: before, matched, after, post)
               | None => None
               end
           end
  end.

(** One attempt of the expression at the head of [s]. *)
Definition matchBlockAt (anchor : JS.str) (s : JS.str)
  : option (JS.str * JS.str * JS.str * JS.str * JS.str) :=
  match openP s with
  | Some (lt_p, t) =>
      match splitGt t with
      | Some (attrs, body) =>
          match scanAnchor anchor ">"%char body with
          | Some (before, matched, after, post) =>
              Some (lt_p ++ attrs ++ [">"%char], before, matched, after, post)
          | None => None
          end
      | None => None
      end
  | None => None
  end.

(** [anchorRe.exec(result)]: the first start position that matches. *)
Fixpoint execAnchor (anchor : JS.str) (s : JS.str) : option AnchorMatch :=
  match matchBlockAt anchor s with
  | Some (o, before, matched, after, post) =>
      Some {| m_pre := []; m_open := o; m_before := before;
              m_matched := matched; m_after := after; m_post := post |}
  | None =>
      match s with
      | [] => None
      | c :: t =>
          match execAnchor anchor t with
          | Some m =>
              Some {| m_pre := c :: m_pre m; m_open := m_open m;
                      m_before := m_before m; m_matched := m_matched m;
                      m_after := m_after m; m_post := m_post m |}
          | None => None
          end
      end
  end.

(** [a || b] on strings. *)
Definition orElse (a b : JS.str) : JS.str := if length a =? 0 then b else a.

Definition linkAnchor (link : InternalLink) : JS.str :=
  orElse (link_anchor link) (orElse (link_anchorText link) (link_text link)).

Definition linkUrl (link : InternalLink) : JS.str :=
  orElse (link_targetUrl link) (link_url link).

Definition dquote : ascii := "034"%char.

Definition linkStyle : JS.str :=
  "color: #059669; text-decoration: underline; text-decoration-color: rgba(5,150,105,0.3); text-underline-offset: 3px; font-weight: 600; transition: all 0.2s ease;".

Definition openTag (url : JS.str) : JS.str :=
  "<a href=" ++ dquote :: url ++ dquote :: " style=" ++ dquote :: linkStyle
  ++ dquote :: ">".

Definition closeTag : JS.str := "</a>".

(** [result.substring(0, match.index) + replacement
     + result.substring(match.index + fullParagraph.length)]. *)
Definition splice (m : AnchorMatch) (url : JS.str) : JS.str :=
  m_pre m
  ++ ((m_open m ++ m_before m) ++ openTag url ++ m_matched m ++ closeTag
      ++ m_after m)
  ++ m_post m.

(** The body of the [for] loop of [injectContextualLinks]. *)
Definition injectStep (result : JS.str) (link : InternalLink) : JS.str :=
  let anchor := linkAnchor link in
  let url := linkUrl link in
  if (length anchor =? 0) || (length url =? 0) || (length anchor <? 4)
  then result
  else
    match execAnchor anchor result with
    | None => result
    | Some m =>
        if JS.testAnchorTag (fullParagraph m) then result
        else splice m url
    end.

(** The [paragraphs] that the code extracts before the loop are not
    used by it. *)
Definition injectContextualLinks (e : SOTAInternalLinkEngine) (html : JS.str)
  (links : list InternalLink) : JS.str :=
  if length links =? 0 then html
  else fold_left injectStep links html.

(** ** Specification vocabulary *)

(** Consecutive elements are at least [gap] apart. *)
Fixpoint spaced (gap : Z) (l : list Z) : Prop :=
  match l with
  | a :: ((b :: _) as t) => (a + gap <= b)%Z /\ spaced gap t
  | _ => True
  end.

(** The candidates ordered by paragraph index. *)
Fixpoint insertByParagraph (c : ScoredCandidate) (l : list ScoredCandidate)
  : list ScoredCandidate :=
  match l with
  | [] => [c]
  | x :: rest =>
      if index (paragraph c) <=? index (paragraph x) then c :: l
      else x :: insertByParagraph c rest
  end.

Definition orderByParagraph (l : list ScoredCandidate) : list ScoredCandidate :=
  fold_right insertByParagraph [] l.

Definition paraIndex (c : ScoredCandidate) : nat := index (paragraph c).
Definition paraCumWords (c : ScoredCandidate) : Z := cumulativeWords (paragraph c).

(** Document order of two extracted paragraphs. *)
Definition precedes (p q : ParagraphInfo) : Prop :=
  index p < index q /\ (cumulativeWords p <= cumulativeWords q)%Z.

(** An anchor from the window loops: 3 to 7 consecutive words of the
    paragraph, in their own casing, joined by single spaces. *)
Definition WindowAnchor (paraText anchor : JS.str) : Prop :=
  exists i len,
    3 <= len <= 7 /\ i + len <= length (JS.splitWs paraText)
    /\ anchor = JS.joinSp (JS.slice (JS.splitWs paraText) i (i + len)).

(** An anchor from the fallback loops: the stretch of the paragraph
    text, over the length of a run of 2 to 4 consecutive title words,
    at the offset where the lower-cased run first occurs in the
    lower-cased paragraph text. *)
Definition FallbackAnchor (paraText pageTitle anchor : JS.str) : Prop :=
  exists i len pos,
    2 <= len <= 4 /\ i + len <= length (titleWordsOf pageTitle)
    /\ let snippet := JS.joinSp (JS.slice (titleWordsOf pageTitle) i (i + len)) in
       JS.indexOf (JS.toLowerCase snippet) (JS.toLowerCase paraText) = Some pos
       /\ anchor = JS.substring paraText pos (pos + length snippet).

(** [WindowAnchor], decided. *)
Definition isWindowAnchor (paraText anchor : JS.str) : bool :=
  let words := JS.splitWs paraText in
  existsb
    (fun len =>
       existsb
         (fun i => JS.eqb anchor (JS.joinSp (JS.slice words i (i + len))))
         (seq 0 (S (length words) - len)))
    (seq 3 5).

(** *** The injector with a log

    [injectTrace] runs the loop of [injectContextualLinks] and records,
    beside the document, where the tags it inserted now stand and what
    each insertion matched.  [injectTrace_doc] shows that its document
    is the one [injectContextualLinks] returns. *)

(** The match and the URL of the insertion that one round of the loop
    performs, if it performs one. *)
Definition insertionOf (result : JS.str) (link : InternalLink)
  : option (AnchorMatch * JS.str) :=
  let anchor := linkAnchor link in
  let url := linkUrl link in
  if (length anchor =? 0) || (length url =? 0) || (length anchor <? 4)
  then None
  else
    match execAnchor anchor result with
    | None => None
    | Some m =>
        if JS.testAnchorTag (fullParagraph m) then None else Some (m, url)
    end.

(** Where the inserted [<a ...>] starts. *)
Definition tagOffset (m : AnchorMatch) : nat :=
  length (m_pre m ++ m_open m ++ m_before m).

(** Where offset [q] of the document stands after the insertion. *)
Definition shiftOffset (m : AnchorMatch) (url : JS.str) (q : nat) : nat :=
  if q <? tagOffset m then q
  else if q <? tagOffset m + length (m_matched m)
       then q + length (openTag url)
  else q + length (openTag url) + length closeTag.

Record Insertion := {
  ins_doc : JS.str;          (* the document at that moment *)
  ins_match : AnchorMatch;   (* the match in it *)
  ins_url : JS.str;
  ins_earlier : list nat     (* the tags inserted before, in [ins_doc] *)
}.

Record Trace := {
  tr_doc : JS.str;
  tr_tags : list nat;
  tr_log : list Insertion
}.

Definition traceStep (t : Trace) (link : InternalLink) : Trace :=
  match insertionOf (tr_doc t) link with
  | None => t
  | Some (m, url) =>
      {| tr_doc := splice m url;
         tr_tags := map (shiftOffset m url) (tr_tags t) ++ [tagOffset m];
         tr_log := tr_log t
                   ++ [{| ins_doc := tr_doc t; ins_match := m; ins_url := url;
                          ins_earlier := tr_tags t |}] |}
  end.

Definition injectTrace (html : JS.str) (links : list InternalLink) : Trace :=
  fold_left traceStep links {| tr_doc := html; tr_tags := []; tr_log := [] |}.

(** [<a ] stands at offset [q] of [s]. *)
Definition tagAt (q : nat) (s : JS.str) : Prop :=
  firstn 3 (skipn q s) = ("<a " : JS.str).

(** The span [[from, from + len)] covers the [<a ] at offset [q]. *)
Definition covers (from len q : nat) : Prop :=
  from <= q /\ q + 3 <= from + len.


(** *** Invariants *)

(** What the greedy loop maintains. *)
Record SelInv (st : Selection) : Prop := {
  inv_urls : usedUrls st = map (fun c => url (page c)) (selected st);
  inv_paras : usedParas st = map paraIndex (selected st);
  inv_last :
    lastCumulativeWords st = last (map paraCumWords (selected st)) 0%Z;
  inv_nodup_urls : NoDup (usedUrls st);
  inv_nodup_paras : NoDup (usedParas st);
  inv_spaced : spaced 250 (map paraCumWords (selected st));
  inv_pos : Forall (fun c => (0 < paraCumWords c)%Z) (selected st)
}.

(** Every anchor a loop of [findBestAnchor] holds satisfies [P]. *)
Definition anchorsAre (P : JS.str -> Prop) (best : Best) : Prop :=
  forall a sc, best = Some (a, sc) -> P a.

(** What an extracted paragraph records of the document [r]. *)
Definition spanOK (r : JS.str) (p : ParagraphInfo) : Prop :=
  html p = firstn (length (html p)) (skipn (startOffset p) r)
  /\ endOffset p = startOffset p + length (html p)
  /\ hasLink p = JS.testAnchorTag (html p)
  /\ exists body close,
       html p = body ++ close /\ length close = 4 /\ atCloseP close = true.

(** What holds of a logged insertion, and of a logged run. *)
Definition insertionOK (ev : Insertion) : Prop :=
  let m := ins_match ev in
  ins_doc ev = m_pre m ++ fullParagraph m ++ m_post m
  /\ JS.testAnchorTag (fullParagraph m) = false
  /\ Forall
       (fun q => tagAt q (ins_doc ev)
                 /\ ~ covers (length (m_pre m)) (length (fullParagraph m)) q)
       (ins_earlier ev).

Definition TraceInv (t : Trace) : Prop :=
  Forall (fun q => tagAt q (tr_doc t)) (tr_tags t)
  /\ Forall insertionOK (tr_log t).

(** ** Concrete documents *)

Definition mkPage (u t : string) : SitePage :=
  {| url := u; title := t; keywords := None; slug := None;
     description := None; content := None |}.

Definition mkLink (a u : string) : InternalLink :=
  {| link_anchor := a; link_anchorText := a; link_targetUrl := u;
     link_url := u; link_text := a; link_context := [];
     link_priority := 50; link_relevanceScore := 50 |}.

Definition noParagraph : ParagraphInfo :=
  {| html := []; text := []; index := 0; wordCount := 0; cumulativeWords := 0;
     hasLink := false; startOffset := 0; endOffset := 0 |}.


Definition sourdoughEngine : SOTAInternalLinkEngine :=
  newEngine (Some [mkPage "/guides/sourdough" "Sourdough Baking Guide"]).

Definition sourdoughText : JS.str :=
  "The complete guide to sourdough baking requires patience and the right flour".

Definition sourdoughHtml : JS.str :=
  "<p>Too short to link</p><p>" ++ sourdoughText ++ "</p>".

(** A paragraph of 13 words in which only the fallback finds the
    title "Big Data". *)
Definition bigDataText : JS.str :=
  "this is big data for you and all of the rest of them".

Definition bigDataHtml : JS.str := "<p>" ++ bigDataText ++ "</p>".

Definition bigDataEngine : SOTAInternalLinkEngine :=
  newEngine (Some [mkPage "/big-data" "Big Data"]).

Definition artEngine : SOTAInternalLinkEngine :=
  newEngine (Some [mkPage "/art-of-war" "The Art of War"]).

Definition artHtml : JS.str :=
  "<p>this is the art that you and all of them would very much like</p>".

Definition twiceHtml : JS.str :=
  "<p>see <a href='/x'>alpha beta</a> here</p><p>alpha beta again</p>".


Definition twoEngine : SOTAInternalLinkEngine :=
  newEngine (Some [mkPage "/guides/sourdough" "Sourdough Baking Guide";
                   mkPage "/art-of-war" "The Art of War"]).

(** Three paragraphs of 12, 250 and 14 words. *)
Definition spacedHtml : JS.str :=
  "<p>" ++ sourdoughText ++ "</p><p>"
  ++ concat (repeat ("lorem " : JS.str) 250)
  ++ "</p>" ++ artHtml.

Definition plainHtml : JS.str :=
  "<p>see alpha beta here</p><p>Alpha Beta again</p>".

Definition plainLinks : list InternalLink :=
  [mkLink "alpha beta" "/y"; mkLink "again" "/w"].

Definition bareAnchorHtml : JS.str := "<p>one <a>alpha beta</a> two</p>".

(** The sourdough document with the links the engine proposes for it. *)
Definition relinkedHtml : JS.str :=
  injectContextualLinks sourdoughEngine sourdoughHtml
    (generateLinkOpportunities sourdoughEngine sourdoughHtml None).


(** ** Further vocabulary *)

(** The running totals of a list of counts. *)
Fixpoint runningTotals (acc : Z) (counts : list Z) : list Z :=
  match counts with
  | [] => []
  | c :: rest => (acc + c)%Z :: runningTotals (acc + c)%Z rest
  end.

(** Two paragraphs one after the other in the document. *)
Definition liesBefore (p q : ParagraphInfo) : Prop :=
  endOffset p <= startOffset q.

(** No [<] of [s] has a [>] after it. *)
Definition tagless (s : JS.str) : Prop :=
  forall x y, s = x ++ "<"%char :: y -> existsb (Ascii.eqb ">"%char) y = false.


(** [s] is [t] with some characters left out. *)
Inductive embeds : JS.str -> JS.str -> Prop :=
| embeds_nil : embeds [] []
| embeds_keep c s t : embeds s t -> embeds (c :: s) (c :: t)
| embeds_skip c s t : embeds s t -> embeds s (c :: t).

(** The number of characters that the insertions of a log add. *)
Fixpoint insertedLength (log : list Insertion) : nat :=
  match log with
  | [] => 0
  | ev :: rest =>
      length (openTag (ins_url ev)) + length closeTag + insertedLength rest
  end.

(** A link the loop passes over whatever the document's markup. *)
Definition skipped (doc : JS.str) (link : InternalLink) : Prop :=
  length (linkAnchor link) < 4
  \/ linkUrl link = []
  \/ JS.indexOf (JS.toLowerCase (linkAnchor link)) (JS.toLowerCase doc) = None.

(** Why a candidate [c] is not taken once [s] is: the same target, the
    same paragraph, or a cumulative word count less than 250 above. *)
Definition clashes (s c : ScoredCandidate) : Prop :=
  url (page s) = url (page c)
  \/ paraIndex s = paraIndex c
  \/ (paraCumWords c - paraCumWords s < 250)%Z.

(** [maxLinks ?? 10]. *)
Definition limitOf (maxLinks : option float) : float :=
  match maxLinks with Some n => n | None => 10%float end.

(** Two paragraphs of 14 and 12 words, one right after the other. *)
Definition closeHtml : JS.str :=
  artHtml ++ "<p>" ++ sourdoughText ++ "</p>".

(** The match of [BETA again] in [plainHtml]. *)
Definition secondMatch : AnchorMatch :=
  {| m_pre := "<p>see alpha beta here</p>"; m_open := "<p>";
     m_before := "Alpha "; m_matched := "Beta again"; m_after := "</p>";
     m_post := [] |}.

(** The link the engine proposes for the sourdough document. *)
Definition sourdoughLink : InternalLink :=
  nth 0 (generateLinkOpportunities sourdoughEngine sourdoughHtml None)
    (mkLink EmptyString EmptyString).

(** The second paragraph of the sourdough document. *)
Definition sourdoughParagraph : ParagraphInfo :=
  nth 1 (extractParagraphs sourdoughHtml) noParagraph.

(** A default for [nth]. *)
Definition noCandidate : ScoredCandidate :=
  {| paragraph := noParagraph; page := mkPage EmptyString EmptyString;
     anchor := []; score := 0 |}.

(** The candidate of the first paragraph of [closeHtml]. *)
Definition artCandidate : ScoredCandidate :=
  nth 0 (collectCandidates (pages twoEngine) (extractParagraphs closeHtml))
    noCandidate.

(** A catalog page whose URL holds [</p><p>], a one-paragraph document,
    the links the engine proposes for it, and the document with those
    links injected. *)
Definition splitEngine : SOTAInternalLinkEngine :=
  newEngine (Some [mkPage "</p><p>" "Sourdough Baking Guide"]).

Definition splitHtml : JS.str :=
  "<p>" ++ sourdoughText ++ " every single day</p>".

Definition splitLinks : list InternalLink :=
  generateLinkOpportunities splitEngine splitHtml None.

Definition splitResult : JS.str :=
  injectContextualLinks splitEngine splitHtml splitLinks.

(** A document without a paragraph element. *)
Definition divHtml : JS.str :=
  "<div>The complete guide to sourdough baking requires patience and the right flour</div>".

(** *** Counting the links of a document

    [countExistingInternalLinks] matches, under the flags [gi], an
    [<a], a white space, [[^>]*], [href], [\s*=\s*], a quote, the run of
    characters that are no quotes, a quote, [[^>]*] and [>]; inside each
    match it then looks, under the flag [i], for the first [href],
    [\s*=\s*] and quoted value.  A quote is a double or a single one,
    and the closing one need not be the opening one. *)

Definition isQuote (c : ascii) : bool :=
  Ascii.eqb c dquote || Ascii.eqb c "'"%char.

(** A run of characters that are no quotes, then a quote: the
    characters before the first quote, and what follows that quote. *)
Fixpoint splitQuote (s : JS.str) : option (JS.str * JS.str) :=
  match s with
  | [] => None
  | c :: t =>
      if isQuote c then Some ([], t)
      else match splitQuote t with
           | Some (v, r) => Some (c :: v, r)
           | None => None
           end
  end.

(** [\s*=\s*] and a quoted value at the head of [s]: the value and
    what follows the closing quote. *)
Definition hrefValue (s : JS.str) : option (JS.str * JS.str) :=
  match JS.dropSpaces s with
  | c :: t =>
      if Ascii.eqb c "="%char then
        match JS.dropSpaces t with
        | q :: t' => if isQuote q then splitQuote t' else None
        | [] => None
        end
      else None
  | [] => None
  end.

(** [href], [\s*=\s*] and a quoted value at the head of [s]. *)
Definition hrefHere (s : JS.str) : option (JS.str * JS.str) :=
  if startsWithI "href" s then hrefValue (skipn 4 s) else None.

(** [href] with its value, then [[^>]*>], at the head of [s]: what
    follows the match. *)
Definition hrefToEnd (s : JS.str) : option JS.str :=
  match hrefHere s with
  | Some (_, r) =>
      match splitGt r with
      | Some (_, after) => Some after
      | None => None
      end
  | None => None
  end.

(** [[^>]*] followed by the rest of the expression: the run is greedy,
    so the last [href] before the first [>] that leads to a match is
    the one taken. *)
Fixpoint lastHref (s : JS.str) : option JS.str :=
  match s with
  | [] => None
  | c :: t =>
      if Ascii.eqb c ">"%char then None
      else match lastHref t with
           | Some after => Some after
           | None => hrefToEnd s
           end
  end.

(** One attempt of the first expression at the head of [s]: the match
    and the text after it. *)
Definition matchLinkAt (s : JS.str) : option (JS.str * JS.str) :=
  match s with
  | c1 :: c2 :: c3 :: t =>
      if Ascii.eqb c1 "<"%char && Ascii.eqb (JS.lowerChar c2) "a"%char
         && JS.isSpace c3
      then match lastHref t with
           | Some after => Some (firstn (length s - length after) s, after)
           | None => None
           end
      else None
  | _ => None
  end.

Fixpoint execLink (s : JS.str) : option (JS.str * JS.str) :=
  match matchLinkAt s with
  | Some r => Some r
  | None =>
      match s with
      | [] => None
      | _ :: t => execLink t
      end
  end.

(** [html.match(re) || []]: the successive matches.  Every match
    consumes text, so [length s] rounds are enough. *)
Fixpoint linkTagsLoop (fuel : nat) (s : JS.str) : list JS.str :=
  match fuel with
  | 0 => []
  | S fuel' =>
      match execLink s with
      | Some (m, rest) => m :: linkTagsLoop fuel' rest
      | None => []
      end
  end.

Definition linkTags (html : JS.str) : list JS.str :=
  linkTagsLoop (length html) html.

(** The value of the first [href] of the tag, or the empty string. *)
Fixpoint firstHref (m : JS.str) : JS.str :=
  match hrefHere m with
  | Some (v, _) => v
  | None =>
      match m with
      | [] => []
      | _ :: t => firstHref t
      end
  end.

Definition looksInternal (href : JS.str) : bool :=
  JS.startsWith "/" href || JS.startsWith "#" href
  || negb (JS.startsWith "http" href).

Definition countExistingInternalLinks (html : JS.str) : nat :=
  length (filter (fun m => looksInternal (firstHref m)) (linkTags html)).

Definition countExistingLinks (e : SOTAInternalLinkEngine) (html : JS.str)
  : nat :=
  countExistingInternalLinks html.

(** ** The contextual engine (v3.0)

    The same source file also holds the earlier engine, "enterprise
    contextual linking".  Its helpers that work on strings and on the
    catalog alone are embedded here. *)

Module Contextual.

Record SitePage := {
  url : JS.str;
  title : JS.str;
  keywords : option (list JS.str);
  category : option JS.str
}.

Definition stopWords : list JS.str := map list_ascii_of_string [
  "a"; "an"; "the"; "and"; "or"; "but"; "in"; "on"; "at"; "to"; "for";
  "of"; "with"; "by"; "from"; "as"; "is"; "was"; "are"; "were"; "been";
  "be"; "have"; "has"; "had"; "do"; "does"; "did"; "will"; "would";
  "could"; "should"; "may"; "might"; "must"; "shall"; "can"; "need";
  "this"; "that"; "these"; "those"; "i"; "you"; "he"; "she"; "it"; "we";
  "they"; "what"; "which"; "who"; "all"; "each"; "every"; "both"; "few";
  "more"; "most"; "other"; "some"; "such"; "no"; "nor"; "not"; "only";
  "own"; "same"; "so"; "than"; "too"; "very"; "just"; "also"; "now";
  "here"; "there"; "then"
]%string.

Record SOTAInternalLinkEngine := { sitePages : list SitePage }.

(** [s.split(' ')]. *)
Fixpoint splitSpace (s : JS.str) : list JS.str :=
  match s with
  | [] => [[]]
  | c :: t =>
      if Ascii.eqb c " "%char then [] :: splitSpace t
      else match splitSpace t with
           | w :: rest => (c :: w) :: rest
           | [] => [[c]]
           end
  end.

(** [[...new Set(a)]]: the distinct elements, in the order of their
    first occurrence. *)
Fixpoint distinct (seen : list JS.str) (a : list JS.str) : list JS.str :=
  match a with
  | [] => []
  | x :: rest =>
      if JS.has seen x then distinct seen rest
      else x :: distinct (seen ++ [x]) rest
  end.

(** [page.category || 'general']. *)
Definition categoryOf (page : SitePage) : JS.str :=
  match category page with
  | Some c => if length c =? 0 then "general" else c
  | None => "general"
  end.

(** One round of the loop of [identifyTopicClusters] on the [Map],
    whose entries are kept in insertion order. *)
Fixpoint addToCluster (clusters : list (JS.str * list SitePage))
  (cat : JS.str) (page : SitePage) : list (JS.str * list SitePage) :=
  match clusters with
  | [] => [(cat, [page])]
  | (k, ps) :: rest =>
      if JS.eqb k cat then (k, ps ++ [page]) :: rest
      else (k, ps) :: addToCluster rest cat page
  end.

Definition identifyTopicClusters (e : SOTAInternalLinkEngine)
  : list (JS.str * list SitePage) :=
  fold_left (fun clusters page => addToCluster clusters (categoryOf page) page)
    (sitePages e) [].

Definition calculatePageSimilarity (page1 page2 : SitePage) : Z :=
  let score := 0%Z in
  let score :=
    match category page1, category page2 with
    | Some c1, Some c2 =>
        if negb (length c1 =? 0) && JS.eqb c1 c2 then (score + 40)%Z else score
    | _, _ => score
    end in
  let score :=
    match keywords page1, keywords page2 with
    | Some k1, Some k2 =>
        (score + Z.of_nat (length (filter (JS.has k2) k1)) * 15)%Z
    | _, _ => score
    end in
  let words1 := distinct [] (splitSpace (JS.toLowerCase (title page1))) in
  let words2 := distinct [] (splitSpace (JS.toLowerCase (title page2))) in
  let titleOverlap :=
    length (filter (fun w => JS.has words2 w && negb (JS.has stopWords w))
              words1) in
  (score + Z.of_nat titleOverlap * 10)%Z.

(** [sort((a, b) => b.score - a.score)] on pages with their scores. *)
Fixpoint insertBySimilarity (c : SitePage * Z) (sorted : list (SitePage * Z))
  : list (SitePage * Z) :=
  match sorted with
  | [] => [c]
  | x :: rest =>
      if (0 <? snd x - snd c)%Z then x :: insertBySimilarity c rest
      else c :: sorted
  end.

Definition sortBySimilarity (l : list (SitePage * Z)) : list (SitePage * Z) :=
  fold_right insertBySimilarity [] l.

(** The suggestions with their scores, before the final [map]. *)
Definition scoredSuggestions (e : SOTAInternalLinkEngine) (currentUrl : JS.str)
  : list (SitePage * Z) :=
  match find (fun p => JS.eqb (url p) currentUrl) (sitePages e) with
  | None => []
  | Some current =>
      firstn 10
        (sortBySimilarity
           (filter (fun item => (30 <? snd item)%Z)
              (map (fun page => (page, calculatePageSimilarity current page))
                 (filter (fun p => negb (JS.eqb (url p) currentUrl))
                    (sitePages e)))))
  end.

Definition getSuggestedLinksForPage (e : SOTAInternalLinkEngine)
  (currentUrl : JS.str) : list SitePage :=
  map fst (scoredSuggestions e currentUrl).

(** The class [[a-zA-Z0-9]]. *)
Definition isAlnum (c : ascii) : bool :=
  JS.between 97 122 c || JS.between 65 90 c || JS.isDigit c.

Fixpoint dropNonAlnum (s : JS.str) : JS.str :=
  match s with
  | c :: t => if isAlnum c then s else dropNonAlnum t
  | [] => []
  end.

(** [s.replace(/\s+/g, ' ')]. *)
Fixpoint collapseSpaces (s : JS.str) : JS.str :=
  match s with
  | [] => []
  | c :: t =>
      if JS.isSpace c then
        match t with
        | c' :: _ => if JS.isSpace c' then collapseSpaces t
                     else " "%char :: collapseSpaces t
        | [] => [" "%char]
        end
      else c :: collapseSpaces t
  end.

Definition cleanAnchorText (text : JS.str) : JS.str :=
  JS.trim
    (collapseSpaces (rev (dropNonAlnum (rev (dropNonAlnum text))))).

(** [s.includes(p)]. *)
Definition includes (s p : JS.str) : bool :=
  match JS.indexOf p s with Some _ => true | None => false end.

Definition calculateAnchorScore (anchor : JS.str) (page : SitePage)
  (pageKeywords : list JS.str) : Z :=
  let score := 50%Z in
  let anchorLower := JS.toLowerCase anchor in
  let titleLower := JS.toLowerCase (title page) in
  let titleWords := filter (fun w => 3 <? length w) (JS.splitWs titleLower) in
  let anchorWords := JS.splitWs anchorLower in
  let score :=
    fold_left
      (fun score titleWord =>
         if existsb (fun aw => includes aw titleWord || includes titleWord aw)
              anchorWords
         then (score + 15)%Z else score)
      titleWords score in
  let score :=
    fold_left
      (fun score keyword =>
         if includes anchorLower (JS.toLowerCase keyword)
         then (score + 20)%Z else score)
      pageKeywords score in
  let wordCount := length (JS.splitWs anchor) in
  let score :=
    if (wordCount =? 4) || (wordCount =? 5) then (score + 10)%Z else score in
  let score := if length anchor <? 20 then (score - 15)%Z else score in
  Z.min 100 score.

(** *** Vocabulary for the contextual engine *)

Definition scoreGe (a b : SitePage * Z) : Prop := (snd b <= snd a)%Z.

Definition inCategory (cat : JS.str) (p : SitePage) : bool :=
  JS.eqb (categoryOf p) cat.

Definition clustersOf (done : list SitePage)
  (clusters : list (JS.str * list SitePage)) : Prop :=
  NoDup (map fst clusters)
  /\ (forall c, In c (map fst clusters) <-> In c (map categoryOf done))
  /\ Forall (fun entry => snd entry = filter (inCategory (fst entry)) done)
       clusters.

Definition headIs (P : ascii -> bool) (s : JS.str) : Prop :=
  match s with c :: _ => P c = true | [] => True end.

(** The text between the leading and the trailing run of characters
    that are neither letters nor digits. *)
Definition core (s : JS.str) : JS.str :=
  rev (dropNonAlnum (rev (dropNonAlnum s))).

(** Every white space of [s] is one space character on its own. *)
Fixpoint singleSpaced (s : JS.str) : bool :=
  match s with
  | [] => true
  | c :: t =>
      (if JS.isSpace c
       then Ascii.eqb c " "%char
            && match t with c' :: _ => negb (JS.isSpace c') | [] => true end
       else true)
      && singleSpaced t
  end.

End Contextual.

(** ** Properties of the string helpers *)

Lemma eqb_eq (a b : JS.str) : JS.eqb a b = true <-> a = b.
Proof.
  revert b; induction a as [|x a IH]; intros [|y b]; simpl;
    try (split; [discriminate | discriminate]); try tauto.
  rewrite andb_true_iff, Ascii.eqb_eq, IH.
  split; [intros [-> ->]; reflexivity | intros H; inversion H; auto].
Qed.

Lemma has_In (set : list JS.str) (x : JS.str) : JS.has set x = true <-> In x set.
Proof.
  unfold JS.has. rewrite existsb_exists. split.
  - intros [y [Hy He]]. apply eqb_eq in He. subst. assumption.
  - intros H. exists x. split; [assumption | apply eqb_eq; reflexivity].
Qed.

Lemma has_false (set : list JS.str) (x : JS.str) :
  JS.has set x = false <-> ~ In x set.
Proof.
  rewrite <- has_In. destruct (JS.has set x); split; congruence.
Qed.

Lemma existsb_nat_false (n : nat) (l : list nat) :
  existsb (Nat.eqb n) l = false <-> ~ In n l.
Proof.
  split.
  - intros H Hin. assert (existsb (Nat.eqb n) l = true); [|congruence].
    apply existsb_exists. exists n. split; [assumption | apply Nat.eqb_refl].
  - intros H. destruct (existsb (Nat.eqb n) l) eqn:E; [|reflexivity].
    apply existsb_exists in E. destruct E as [y [Hy He]].
    apply Nat.eqb_eq in He. subst. contradiction.
Qed.

(** ** Paragraph extraction: document order *)

Lemma countWords_nonneg (t : JS.str) : (0 <= countWords t)%Z.
Proof. unfold countWords. lia. Qed.

Lemma extractLoop_order (fuel : nat) :
  forall s off idx cum0,
    StronglySorted precedes (extractLoop fuel s off idx cum0)
    /\ Forall (fun p => idx <= index p
                        /\ (cum0 + wordCount p <= cumulativeWords p)%Z
                        /\ (0 <= wordCount p)%Z)
         (extractLoop fuel s off idx cum0).
Proof.
  induction fuel as [|fuel IH]; intros s off idx cum0; simpl.
  - split; constructor.
  - destruct (execParagraph s) as [[[i m0] rest]|]; [|split; constructor].
    set (wc := countWords (JS.trim (JS.stripTags m0))).
    specialize (IH rest (off + i + length m0) (S idx) (cum0 + wc)%Z).
    destruct IH as [Hs Hf]. pose proof (countWords_nonneg (JS.trim (JS.stripTags m0))).
    split.
    + constructor; [assumption|].
      eapply Forall_impl; [|exact Hf]. intros p (Hi & Hc & Hw).
      unfold precedes; simpl. fold wc. split; lia.
    + constructor; [simpl; fold wc; lia|].
      eapply Forall_impl; [|exact Hf]. intros p (Hi & Hc & Hw). fold wc in H. lia.
Qed.

Lemma sorted_trichotomy {A} (R : A -> A -> Prop) (l : list A) :
  StronglySorted R l ->
  forall a b, In a l -> In b l -> a = b \/ R a b \/ R b a.
Proof.
  induction 1 as [|x l Hs IH Hx]; intros a b Ha Hb; [contradiction|].
  rewrite Forall_forall in Hx.
  destruct Ha as [<-|Ha], Hb as [<-|Hb]; auto.
Qed.

Lemma extractParagraphs_order (html : JS.str) :
  StronglySorted precedes (extractParagraphs html).
Proof. apply extractLoop_order. Qed.

Lemma extractParagraphs_counts (html : JS.str) (p : ParagraphInfo) :
  In p (extractParagraphs html) ->
  (wordCount p <= cumulativeWords p)%Z /\ (0 <= wordCount p)%Z.
Proof.
  intros H. pose proof (proj2 (extractLoop_order (length html) html 0 0 0%Z)) as F.
  rewrite Forall_forall in F. specialize (F p H). lia.
Qed.

(** Two extracted paragraphs with the same index are the same paragraph. *)
Lemma extractParagraphs_index_inj (html : JS.str) (p q : ParagraphInfo) :
  In p (extractParagraphs html) -> In q (extractParagraphs html) ->
  index p = index q -> p = q.
Proof.
  intros Hp Hq E.
  destruct (sorted_trichotomy _ _ (extractParagraphs_order html) p q Hp Hq)
    as [H|[[H _]|[H _]]]; [assumption | lia | lia].
Qed.

(** A larger running word total means a later paragraph. *)
Lemma extractParagraphs_cum_index (html : JS.str) (p q : ParagraphInfo) :
  In p (extractParagraphs html) -> In q (extractParagraphs html) ->
  (cumulativeWords p < cumulativeWords q)%Z -> index p < index q.
Proof.
  intros Hp Hq E.
  destruct (sorted_trichotomy _ _ (extractParagraphs_order html) p q Hp Hq)
    as [H|[[H _]|[_ H]]]; [subst; lia | assumption | lia].
Qed.

(** ** Candidates *)

Lemma candidatesOf_In (ps : list SitePage) (para : ParagraphInfo)
  (c : ScoredCandidate) :
  In c (candidatesOf ps para) ->
  paragraph c = para /\ hasLink para = false /\ (12 <= wordCount para)%Z
  /\ In (page c) ps
  /\ findBestAnchor (text para) (page c) = Some (anchor c, score c).
Proof.
  unfold candidatesOf.
  destruct (hasLink para) eqn:Hl; simpl; [contradiction|].
  destruct (wordCount para <? 12)%Z eqn:Hw; [contradiction|].
  apply Z.ltb_ge in Hw. rewrite in_flat_map. intros [pg [Hpg Hc]].
  destruct (findBestAnchor (text para) pg) as [[a sc]|] eqn:Hf; [|contradiction].
  destruct Hc as [<-|[]]. simpl. auto.
Qed.

Lemma collectCandidates_In (ps : list SitePage) (paras : list ParagraphInfo)
  (c : ScoredCandidate) :
  In c (collectCandidates ps paras) ->
  In (paragraph c) paras /\ hasLink (paragraph c) = false
  /\ (12 <= wordCount (paragraph c))%Z /\ In (page c) ps
  /\ findBestAnchor (text (paragraph c)) (page c) = Some (anchor c, score c).
Proof.
  unfold collectCandidates. rewrite in_flat_map. intros [para [Hp Hc]].
  apply candidatesOf_In in Hc. destruct Hc as (E & Hc). subst para. auto.
Qed.

Lemma insertByScore_In (c x : ScoredCandidate) (l : list ScoredCandidate) :
  In x (insertByScore c l) <-> x = c \/ In x l.
Proof.
  induction l as [|y l IH]; simpl.
  - intuition congruence.
  - destruct (comesAfter c y); simpl; rewrite ?IH; intuition congruence.
Qed.

Lemma sortByScore_In (x : ScoredCandidate) (l : list ScoredCandidate) :
  In x (sortByScore l) <-> In x l.
Proof.
  induction l as [|c l IH]; simpl; [tauto|].
  rewrite insertByScore_In, IH. intuition congruence.
Qed.

(** ** The greedy selection *)

Section Selection.

Variable limit : float.

Lemma selectLoop_subset (cs : list ScoredCandidate) :
  forall st c,
    In c (selected (selectLoop limit cs st)) -> In c (selected st) \/ In c cs.
Proof.
  induction cs as [|x cs IH]; intros st c H; simpl in *; [auto|].
  destruct (PrimFloat.leb limit (JS.num (length (selected st)))); [auto|].
  destruct (JS.has (usedUrls st) (url (page x)));
    [destruct (IH _ _ H); auto|].
  destruct (existsb (Nat.eqb (index (paragraph x))) (usedParas st));
    [destruct (IH _ _ H); auto|].
  destruct (tooClose st x); [destruct (IH _ _ H); auto|].
  destruct (IH _ _ H) as [H'|H']; [|auto].
  simpl in H'. apply in_app_or in H'. destruct H' as [H'|[<-|[]]]; auto.
Qed.

Lemma spaced_snoc (gap : Z) (l : list Z) (y : Z) :
  spaced gap l -> (l <> [] -> (last l 0 + gap <= y)%Z) ->
  spaced gap (l ++ [y]).
Proof.
  induction l as [|a [|b t] IH]; intros Hs Hl.
  - exact I.
  - simpl. split; [apply Hl; discriminate | exact I].
  - destruct Hs as [Hab Hs]. change ((a :: b :: t) ++ [y]) with (a :: b :: (t ++ [y])).
    split; [assumption|]. apply IH; [assumption|].
    intros _. apply Hl. discriminate.
Qed.

Lemma NoDup_snoc {A} (l : list A) (x : A) :
  NoDup l -> ~ In x l -> NoDup (l ++ [x]).
Proof.
  intros Hn Hx. apply NoDup_app; [assumption | repeat constructor; simpl; tauto|].
  intros a Ha [<-|[]]. contradiction.
Qed.

Lemma last_In_nonempty {A} (l : list A) (d : A) : l <> [] -> In (last l d) l.
Proof.
  induction l as [|a [|b t] IH]; intros H; [congruence | left; reflexivity|].
  right. apply IH. discriminate.
Qed.

Lemma SelInv_empty : SelInv emptySelection.
Proof. split; simpl; try reflexivity; constructor. Qed.

Lemma SelInv_accept (st : Selection) (c : ScoredCandidate) :
  SelInv st ->
  (0 < paraCumWords c)%Z ->
  JS.has (usedUrls st) (url (page c)) = false ->
  existsb (Nat.eqb (index (paragraph c))) (usedParas st) = false ->
  tooClose st c = false ->
  SelInv (accept st c).
Proof.
  intros [Hu Hp Hl Hnu Hnp Hs Hpos] Hc Hurl Hpar Hclose.
  apply has_false in Hurl. apply existsb_nat_false in Hpar.
  split; simpl.
  - rewrite map_app, Hu. reflexivity.
  - rewrite map_app, Hp. reflexivity.
  - rewrite map_app. simpl. rewrite last_last. reflexivity.
  - apply NoDup_snoc; assumption.
  - apply NoDup_snoc; assumption.
  - rewrite map_app. simpl. apply spaced_snoc; [assumption|].
    intros Hne. rewrite <- Hl.
    assert (0 < lastCumulativeWords st)%Z as Hlast.
    { rewrite Hl. pose proof (last_In_nonempty _ 0%Z Hne) as Hin.
      apply in_map_iff in Hin. destruct Hin as [x [Ex Hx]].
      rewrite Forall_forall in Hpos. rewrite <- Ex. apply Hpos. assumption. }
    unfold tooClose in Hclose. apply andb_false_iff in Hclose.
    destruct Hclose as [H|H]; [apply Z.ltb_ge in H; lia|].
    apply Z.ltb_ge in H. unfold paraCumWords. lia.
  - apply Forall_app. split; [assumption | repeat constructor; assumption].
Qed.

Lemma selectLoop_inv (cs : list ScoredCandidate) :
  forall st,
    SelInv st -> Forall (fun c => (0 < paraCumWords c)%Z) cs ->
    SelInv (selectLoop limit cs st).
Proof.
  induction cs as [|x cs IH]; intros st Hst Hcs; simpl; [assumption|].
  inversion Hcs as [|? ? Hx Hcs']; subst.
  destruct (PrimFloat.leb limit (JS.num (length (selected st)))); [assumption|].
  destruct (JS.has (usedUrls st) (url (page x))) eqn:E1; [auto|].
  destruct (existsb (Nat.eqb (index (paragraph x))) (usedParas st)) eqn:E2; [auto|].
  destruct (tooClose st x) eqn:E3; [auto|].
  apply IH; [|assumption]. apply SelInv_accept; assumption.
Qed.

End Selection.

(** What holds of the candidates behind a returned list. *)
Lemma selectCandidates_sound (e : SOTAInternalLinkEngine) (html : JS.str)
  (maxLinks : option float) (c : ScoredCandidate) :
  In c (selectCandidates e html maxLinks) ->
  In c (collectCandidates (pages e) (extractParagraphs html)).
Proof.
  unfold selectCandidates. destruct (length (pages e) =? 0); [intros []|].
  intros H. apply selectLoop_subset in H. destruct H as [[]|H].
  apply (proj1 (sortByScore_In _ _)) in H. assumption.
Qed.

Lemma candidate_cum_pos (ps : list SitePage) (html : JS.str)
  (c : ScoredCandidate) :
  In c (collectCandidates ps (extractParagraphs html)) ->
  (0 < paraCumWords c)%Z.
Proof.
  intros H. apply collectCandidates_In in H. destruct H as (Hin & _ & Hw & _).
  apply extractParagraphs_counts in Hin. unfold paraCumWords. lia.
Qed.

Lemma selectCandidates_inv (e : SOTAInternalLinkEngine) (html : JS.str)
  (maxLinks : option float) :
  exists st, selectCandidates e html maxLinks = selected st /\ SelInv st.
Proof.
  unfold selectCandidates. destruct (length (pages e) =? 0).
  - exists emptySelection. split; [reflexivity | apply SelInv_empty].
  - eexists. split; [reflexivity|]. apply selectLoop_inv; [apply SelInv_empty|].
    apply Forall_forall. intros c Hc. apply (proj1 (sortByScore_In _ _)) in Hc.
    eapply candidate_cum_pos. eassumption.
Qed.

Lemma spaced_sorted (gap : Z) (l : list Z) :
  (0 < gap)%Z -> spaced gap l -> StronglySorted Z.lt l.
Proof.
  intros Hg. induction l as [|a [|b t] IH]; intros Hs.
  - constructor.
  - repeat constructor.
  - destruct Hs as [Hab Hs]. specialize (IH Hs).
    constructor; [assumption|].
    inversion IH as [|? ? _ Hb]; subst.
    constructor; [lia|]. eapply Forall_impl; [|exact Hb]. intros; lia.
Qed.

Lemma StronglySorted_map_inv {A B} (f : A -> B) (R : B -> B -> Prop)
  (l : list A) :
  StronglySorted R (map f l) -> StronglySorted (fun a b => R (f a) (f b)) l.
Proof.
  induction l as [|a l IH]; simpl; intros H; [constructor|].
  inversion H as [|? ? Hs Hf]; subst. constructor; [auto|].
  rewrite Forall_map in Hf. assumption.
Qed.

Lemma StronglySorted_map {A B} (f : A -> B) (R : B -> B -> Prop)
  (l : list A) :
  StronglySorted (fun a b => R (f a) (f b)) l -> StronglySorted R (map f l).
Proof.
  induction 1 as [|a l Hs IH Hf]; simpl; constructor; [assumption|].
  rewrite Forall_map. assumption.
Qed.

Lemma StronglySorted_weaken {A} (R R' : A -> A -> Prop) (l : list A) :
  (forall a b, In a l -> In b l -> R a b -> R' a b) ->
  StronglySorted R l -> StronglySorted R' l.
Proof.
  intros H Hs. induction Hs as [|a l Hs IH Hf]; constructor.
  - apply IH. intros; apply H; simpl; auto.
  - rewrite Forall_forall in *. intros b Hb. apply H; simpl; auto.
Qed.

Lemma selectCandidates_cum_sorted (e : SOTAInternalLinkEngine)
  (html : JS.str) (maxLinks : option float) :
  StronglySorted Z.lt (map paraCumWords (selectCandidates e html maxLinks)).
Proof.
  destruct (selectCandidates_inv e html maxLinks) as [st [-> Hst]].
  apply spaced_sorted with (gap := 250%Z); [lia | apply Hst].
Qed.

Lemma selectCandidates_index_sorted (e : SOTAInternalLinkEngine)
  (html : JS.str) (maxLinks : option float) :
  StronglySorted lt (map paraIndex (selectCandidates e html maxLinks)).
Proof.
  apply StronglySorted_map.
  pose proof (StronglySorted_map_inv _ _ _
                (selectCandidates_cum_sorted e html maxLinks)) as Hc.
  revert Hc. apply StronglySorted_weaken.
  intros a b Ha Hb Hlt. unfold paraIndex, paraCumWords in *.
  apply selectCandidates_sound, collectCandidates_In in Ha, Hb.
  eapply extractParagraphs_cum_index; [apply Ha | apply Hb | exact Hlt].
Qed.

Lemma insertByParagraph_head (c : ScoredCandidate) (l : list ScoredCandidate) :
  Forall (fun x => paraIndex c < paraIndex x) l ->
  insertByParagraph c l = c :: l.
Proof.
  destruct l as [|x l]; intros H; simpl; [reflexivity|].
  inversion H; subst. unfold paraIndex in *.
  destruct (index (paragraph c) <=? index (paragraph x)) eqn:E;
    [reflexivity | apply Nat.leb_gt in E; lia].
Qed.

Lemma orderByParagraph_sorted (l : list ScoredCandidate) :
  StronglySorted lt (map paraIndex l) -> orderByParagraph l = l.
Proof.
  induction l as [|c l IH]; simpl; intros H; [reflexivity|].
  inversion H as [|? ? Hs Hf]; subst. rewrite (IH Hs).
  apply insertByParagraph_head. rewrite Forall_map in Hf. assumption.
Qed.

(** ** Properties of [generateLinkOpportunities] *)

Lemma generate_targetUrls (e : SOTAInternalLinkEngine) (html : JS.str)
  (maxLinks : option float) :
  map link_targetUrl (generateLinkOpportunities e html maxLinks)
  = map (fun c => url (page c)) (selectCandidates e html maxLinks).
Proof. unfold generateLinkOpportunities. rewrite map_map. reflexivity. Qed.

(** C1. Whatever the HTML, the catalog and [maxLinks], the links that
    [generateLinkOpportunities] returns have pairwise distinct target
    URLs, and the paragraphs that host them have pairwise distinct
    indices. *)
Theorem generate_distinct_targets_and_paragraphs
  (e : SOTAInternalLinkEngine) (html : JS.str) (maxLinks : option float) :
  NoDup (map link_targetUrl (generateLinkOpportunities e html maxLinks))
  /\ NoDup (map paraIndex (selectCandidates e html maxLinks)).
Proof.
  rewrite generate_targetUrls.
  destruct (selectCandidates_inv e html maxLinks) as [st [-> Hst]].
  rewrite <- (inv_urls _ Hst), <- (inv_paras _ Hst).
  split; apply Hst.
Qed.

(** C2. When the returned links are ordered by the index of their
    paragraph, the running word totals of the paragraphs of two
    consecutive links differ by at least 250. *)
Theorem generate_spacing_by_paragraph_order
  (e : SOTAInternalLinkEngine) (html : JS.str) (maxLinks : option float) :
  spaced 250
    (map paraCumWords (orderByParagraph (selectCandidates e html maxLinks))).
Proof.
  rewrite orderByParagraph_sorted by apply selectCandidates_index_sorted.
  destruct (selectCandidates_inv e html maxLinks) as [st [-> Hst]].
  apply Hst.
Qed.

(** C7. No candidate, and so no returned link, refers to an extracted
    paragraph of fewer than 12 words. *)
Theorem short_paragraph_hosts_no_candidate
  (e : SOTAInternalLinkEngine) (html : JS.str) (maxLinks : option float)
  (p : ParagraphInfo) :
  In p (extractParagraphs html) ->
  (wordCount p < 12)%Z ->
  ~ In (index p)
      (map paraIndex (collectCandidates (pages e) (extractParagraphs html)))
  /\ ~ In (index p) (map paraIndex (selectCandidates e html maxLinks)).
Proof.
  intros Hp Hw.
  assert (forall c, In c (collectCandidates (pages e) (extractParagraphs html))
                    -> paraIndex c <> index p) as H.
  { intros c Hc E. apply collectCandidates_In in Hc.
    destruct Hc as (Hin & _ & Hwc & _).
    rewrite (extractParagraphs_index_inj html _ _ Hin Hp E) in Hwc. lia. }
  split; intros Hin; apply in_map_iff in Hin; destruct Hin as [c [E Hc]].
  - exact (H c Hc E).
  - apply selectCandidates_sound in Hc. exact (H c Hc E).
Qed.

(** C8. With an empty catalog (an engine built without pages or with
    an empty list, or updated to [undefined] or to an empty list),
    [generateLinkOpportunities] returns the empty list for every HTML
    and every [maxLinks]; the test comes before the HTML is read. *)
Theorem generate_empty_catalog
  (e : SOTAInternalLinkEngine) (html : JS.str) (maxLinks : option float) :
  generateLinkOpportunities (newEngine None) html maxLinks = []
  /\ generateLinkOpportunities (newEngine (Some [])) html maxLinks = []
  /\ generateLinkOpportunities (updateSitePages e None) html maxLinks = []
  /\ generateLinkOpportunities (updateSitePages e (Some [])) html maxLinks = [].
Proof. repeat split. Qed.

(** C9. The returned list is in document order: along it the paragraph
    indices and the running word totals strictly increase. *)
Theorem generate_document_order
  (e : SOTAInternalLinkEngine) (html : JS.str) (maxLinks : option float) :
  StronglySorted lt (map paraIndex (selectCandidates e html maxLinks))
  /\ StronglySorted Z.lt (map paraCumWords (selectCandidates e html maxLinks)).
Proof.
  split; [apply selectCandidates_index_sorted | apply selectCandidates_cum_sorted].
Qed.

(** ** The shape of the anchors that [findBestAnchor] returns *)

Lemma fold_left_invariant {A B} (P : A -> Prop) (f : A -> B -> A)
  (l : list B) :
  (forall a x, In x l -> P a -> P (f a x)) ->
  forall init, P init -> P (fold_left f l init).
Proof.
  induction l as [|x l IH]; intros Hf init Hi; simpl; [assumption|].
  apply IH; [intros; apply Hf; simpl; auto|]. apply Hf; simpl; auto.
Qed.

Lemma windowStep_shape (paraText : JS.str) (titleStems allTargetStems : list JS.str)
  (len i : nat) (best : Best) :
  3 <= len <= 7 -> i + len <= length (JS.splitWs paraText) ->
  anchorsAre (WindowAnchor paraText) best ->
  anchorsAre (WindowAnchor paraText)
    (windowStep (JS.splitWs paraText) titleStems allTargetStems len i best).
Proof.
  intros Hlen Hi Hbest. unfold windowStep.
  repeat match goal with
         | |- context [if ?b then _ else _] => destruct b
         end; try assumption;
    intros a sc E; injection E as <- _; exists i, len; auto.
Qed.

Lemma windowLoop_shape (paraText : JS.str) (titleStems allTargetStems : list JS.str) :
  anchorsAre (WindowAnchor paraText)
    (windowLoop (JS.splitWs paraText) titleStems allTargetStems).
Proof.
  unfold windowLoop.
  apply fold_left_invariant; [|intros a sc E; discriminate].
  intros best len Hlen Hbest. apply in_seq in Hlen.
  apply fold_left_invariant; [|assumption].
  intros best' i Hi Hbest'. apply in_seq in Hi.
  apply windowStep_shape; [lia | lia | assumption].
Qed.

Lemma startsWith_firstn (p s : JS.str) :
  JS.startsWith p s = true -> firstn (length p) s = p.
Proof.
  revert s; induction p as [|x p IH]; intros [|y s]; simpl; try discriminate;
    [reflexivity | reflexivity|].
  rewrite andb_true_iff, Ascii.eqb_eq. intros [-> H]. f_equal. auto.
Qed.

Lemma indexOf_found (p s : JS.str) (pos : nat) :
  JS.indexOf p s = Some pos -> firstn (length p) (skipn pos s) = p.
Proof.
  revert pos; induction s as [|c s IH]; intros pos; simpl.
  - destruct (JS.startsWith p []) eqn:E; [|discriminate].
    intros H. injection H as <-. apply startsWith_firstn. assumption.
  - destruct (JS.startsWith p (c :: s)) eqn:E.
    + intros H. injection H as <-. apply startsWith_firstn. assumption.
    + destruct (JS.indexOf p s) as [k|]; simpl; [|discriminate].
      intros H. injection H as <-. simpl. auto.
Qed.

(** On the embedded alphabet lower-casing keeps the length. *)
Lemma toLowerCase_length (s : JS.str) : length (JS.toLowerCase s) = length s.
Proof. apply length_map. Qed.

Lemma fallbackStep_shape (paraText pageTitle : JS.str) (P : JS.str -> Prop)
  (len i : nat) (best : Best) :
  2 <= len <= 4 -> i + len <= length (titleWordsOf pageTitle) ->
  anchorsAre (fun a => P a \/ FallbackAnchor paraText pageTitle a) best ->
  anchorsAre (fun a => P a \/ FallbackAnchor paraText pageTitle a)
    (fallbackStep paraText (JS.toLowerCase paraText) (titleWordsOf pageTitle)
       len i best).
Proof.
  intros Hlen Hi Hbest. unfold fallbackStep.
  set (snippet := JS.joinSp (JS.slice (titleWordsOf pageTitle) i (i + len))).
  destruct (JS.indexOf (JS.toLowerCase snippet) (JS.toLowerCase paraText))
    as [pos|] eqn:E; [|assumption].
  destruct (better best _); [|assumption].
  intros a sc Ea. injection Ea as <- _. right.
  exists i, len, pos. fold snippet. repeat split; try lia; assumption.
Qed.

Lemma fallbackLoop_shape (paraText pageTitle : JS.str) (P : JS.str -> Prop)
  (best : Best) :
  anchorsAre P best ->
  anchorsAre (fun a => P a \/ FallbackAnchor paraText pageTitle a)
    (fallbackLoop paraText pageTitle best).
Proof.
  intros Hbest. unfold fallbackLoop.
  apply fold_left_invariant; [|intros a sc E; left; eauto].
  intros b len Hlen Hb. apply in_rev, in_seq in Hlen.
  apply fold_left_invariant; [|assumption].
  intros b' i Hi Hb'. apply in_seq in Hi.
  apply fallbackStep_shape; [lia | lia | assumption].
Qed.

(** C3, amended.  An anchor that [findBestAnchor] returns is either 3 to
    7 consecutive words of the paragraph text, in their own casing and
    joined by single spaces (window loops), or the stretch
    [paraText.substring(pos, pos + snippet.length)] of the paragraph
    text, where [snippet] is a run of 2 to 4 consecutive title words of
    more than two characters, joined by single spaces, and [pos] is
    the offset of the first occurrence of the lower-cased snippet in
    the lower-cased paragraph text (fallback loops). *)
Theorem findBestAnchor_anchor_shape (paraText : JS.str) (pg : SitePage)
  (a : JS.str) (sc : float) :
  findBestAnchor paraText pg = Some (a, sc) ->
  WindowAnchor paraText a \/ FallbackAnchor paraText (title pg) a.
Proof.
  unfold findBestAnchor.
  destruct (length _ =? 0); [discriminate|].
  destruct (length (JS.splitWs paraText) <? 5); [discriminate|].
  set (w := windowLoop _ _ _).
  assert (anchorsAre (WindowAnchor paraText) w) as Hw by apply windowLoop_shape.
  assert (anchorsAre
            (fun a => WindowAnchor paraText a \/ FallbackAnchor paraText (title pg) a)
            (if needsFallback w then fallbackLoop paraText (title pg) w else w))
    as Hb.
  { destruct (needsFallback w); [apply fallbackLoop_shape; assumption|].
    intros x y E. left. eauto. }
  destruct (if needsFallback w then _ else w) as [[x y]|]; [|discriminate].
  destruct (PrimFloat.leb 10 y); [|discriminate].
  intros E. injection E as <- <-. eapply Hb. reflexivity.
Qed.

Lemma isWindowAnchor_complete (paraText anchor : JS.str) :
  WindowAnchor paraText anchor -> isWindowAnchor paraText anchor = true.
Proof.
  intros (i & len & Hlen & Hi & ->). unfold isWindowAnchor.
  apply existsb_exists. exists len. split; [apply in_seq; lia|].
  apply existsb_exists. exists i. split; [apply in_seq; lia|].
  apply eqb_eq. reflexivity.
Qed.

(** The window loops never keep a phrase whose first or last word,
    reduced to its letters, is a stop word. *)
Lemma windowLoop_no_stop_word (words titleStems allTargetStems : list JS.str) :
  anchorsAre
    (fun a =>
       exists i len,
         a = JS.joinSp (JS.slice words i (i + len))
         /\ JS.has STOP (lettersOf (nth i words [])) = false
         /\ JS.has STOP (lettersOf (nth (i + len - 1) words [])) = false)
    (windowLoop words titleStems allTargetStems).
Proof.
  unfold windowLoop.
  apply fold_left_invariant; [|intros a sc E; discriminate].
  intros best len _ Hbest.
  apply fold_left_invariant; [|assumption].
  intros best' i _ Hbest'. unfold windowStep.
  destruct (length _ <? 8); [assumption|].
  destruct (length _ =? 0); [assumption|].
  destruct (JS.has STOP (lettersOf (nth i words []))
            || JS.has STOP (lettersOf (nth (i + len - 1) words []))) eqn:E;
    [assumption|].
  apply orb_false_iff in E.
  destruct (_ =? 0); [assumption|].
  destruct (better best' _); [|assumption].
  intros a sc H. injection H as <- _. exists i, len. tauto.
Qed.

(** ** The injector: what a match is made of *)

Lemma splitGt_decomp (s a r : JS.str) :
  splitGt s = Some (a, r) -> s = a ++ ">"%char :: r.
Proof.
  revert a r; induction s as [|c s IH]; intros a r; simpl; [discriminate|].
  destruct (Ascii.eqb c ">"%char) eqn:E.
  - apply Ascii.eqb_eq in E. subst. intros H. injection H as <- <-. reflexivity.
  - destruct (splitGt s) as [[a' r']|]; [|discriminate].
    intros H. injection H as <- <-. simpl. f_equal. auto.
Qed.

Lemma atCloseP_length (s : JS.str) : atCloseP s = true -> 4 <= length s.
Proof.
  destruct s as [|c1 [|c2 [|c3 [|c4 s]]]]; simpl; try discriminate. lia.
Qed.

Lemma splitCloseP_eq (s : JS.str) :
  splitCloseP s
  = if atCloseP s then Some ([], firstn 4 s, skipn 4 s)
    else match s with
         | [] => None
         | c :: t =>
             match splitCloseP t with
             | Some (inner, close, r) => Some (c :: inner, close, r)
             | None => None
             end
         end.
Proof. destruct s; reflexivity. Qed.

Lemma splitCloseP_decomp (s inner close r : JS.str) :
  splitCloseP s = Some (inner, close, r) ->
  s = inner ++ close ++ r /\ length close = 4.
Proof.
  revert inner close r; induction s as [|c s IH]; intros inner close r;
    rewrite splitCloseP_eq.
  - simpl. discriminate.
  - destruct (atCloseP (c :: s)) eqn:E.
    + generalize dependent (c :: s). intros s' E H.
      assert (inner = []) as -> by congruence.
      assert (close = firstn 4 s') as -> by congruence.
      assert (r = skipn 4 s') as -> by congruence.
      apply atCloseP_length in E.
      split; [symmetry; apply (firstn_skipn 4 s')|].
      apply firstn_length_le. assumption.
    + destruct (splitCloseP s) as [[[i' c'] r']|]; [|discriminate].
      intros H. injection H as <- <- <-.
      destruct (IH _ _ _ eq_refl) as [-> Hl]. auto.
Qed.

Lemma openP_decomp (s o t : JS.str) :
  openP s = Some (o, t) -> s = o ++ t /\ length o = 2.
Proof.
  destruct s as [|c1 [|c2 s]]; simpl; try discriminate.
  destruct (_ && _); [|discriminate].
  intros H. injection H as <- <-. auto.
Qed.

Lemma matchAnchorHere_decomp (anchor : JS.str) (prev : ascii)
  (b matched after post : JS.str) :
  matchAnchorHere anchor prev b = Some (matched, after, post) ->
  b = matched ++ after ++ post /\ 4 <= length after.
Proof.
  unfold matchAnchorHere. destruct (_ && _); [|discriminate].
  destruct (splitCloseP _) as [[[i c] r]|] eqn:E; [|discriminate].
  intros H. injection H as <- <- <-.
  apply splitCloseP_decomp in E. destruct E as [E Hl]. split.
  - rewrite <- app_assoc, <- E. symmetry. apply firstn_skipn.
  - rewrite length_app. lia.
Qed.

Lemma scanAnchor_decomp (anchor : JS.str) (b : JS.str) :
  forall prev before matched after post,
    scanAnchor anchor prev b = Some (before, matched, after, post) ->
    b = before ++ matched ++ after ++ post /\ 4 <= length after.
Proof.
  induction b as [|c b IH]; intros prev before matched after post;
    cbn [scanAnchor].
  - destruct (matchAnchorHere anchor prev []) as [[[m a] r]|] eqn:E.
    + intros H. injection H as <- <- <- <-.
      apply matchAnchorHere_decomp in E. assumption.
    + destruct (atCloseP []); discriminate.
  - destruct (matchAnchorHere anchor prev (c :: b)) as [[[m a] r]|] eqn:E.
    + intros H. injection H as <- <- <- <-.
      apply matchAnchorHere_decomp in E. assumption.
    + destruct (atCloseP (c :: b)); [discriminate|].
      destruct (scanAnchor anchor c b) as [[[[b' m'] a'] r']|] eqn:E';
        [|discriminate].
      intros H. injection H as <- <- <- <-.
      destruct (IH _ _ _ _ _ E') as [-> Hl]. auto.
Qed.

Lemma matchBlockAt_decomp (anchor s o before matched after post : JS.str) :
  matchBlockAt anchor s = Some (o, before, matched, after, post) ->
  s = o ++ before ++ matched ++ after ++ post
  /\ 3 <= length o /\ 4 <= length after.
Proof.
  unfold matchBlockAt.
  destruct (openP s) as [[lt_p t]|] eqn:Eo; [|discriminate].
  destruct (splitGt t) as [[attrs body]|] eqn:Eg; [|discriminate].
  destruct (scanAnchor anchor ">"%char body) as [[[[b m] a] r]|] eqn:Es;
    [|discriminate].
  intros H. injection H as <- <- <- <- <-.
  apply openP_decomp in Eo. destruct Eo as [-> Hl].
  apply splitGt_decomp in Eg. subst t.
  apply scanAnchor_decomp in Es. destruct Es as [-> Ha].
  repeat split; [|rewrite !length_app; simpl; lia | assumption].
  rewrite <- !app_assoc. reflexivity.
Qed.

Lemma execAnchor_decomp (anchor : JS.str) (s : JS.str) :
  forall m,
    execAnchor anchor s = Some m ->
    s = m_pre m ++ fullParagraph m ++ m_post m
    /\ 3 <= length (m_open m) /\ 4 <= length (m_after m).
Proof.
  unfold fullParagraph.
  induction s as [|c s IH]; intros m; cbn [execAnchor].
  - destruct (matchBlockAt anchor []) as [[[[[o b] x] a] r]|] eqn:E;
      [|discriminate].
    intros H. injection H as <-. apply matchBlockAt_decomp in E. simpl.
    rewrite <- !app_assoc. assumption.
  - destruct (matchBlockAt anchor (c :: s)) as [[[[[o b] x] a] r]|] eqn:E.
    + intros H. injection H as <-. apply matchBlockAt_decomp in E. simpl.
      rewrite <- !app_assoc. assumption.
    + destruct (execAnchor anchor s) as [m'|]; [|discriminate].
      intros H. injection H as <-. simpl.
      destruct (IH _ eq_refl) as (E' & Ho & Ha).
      repeat split; [|assumption..]. f_equal. assumption.
Qed.

Lemma startsWithI_firstn (p s : JS.str) :
  startsWithI p s = true ->
  JS.toLowerCase (firstn (length p) s) = JS.toLowerCase p.
Proof.
  revert s; induction p as [|x p IH]; intros [|y s]; simpl; try discriminate;
    [reflexivity | reflexivity|].
  rewrite andb_true_iff, Ascii.eqb_eq. intros [E H]. f_equal; auto.
Qed.

Lemma matchAnchorHere_matched (anchor : JS.str) (prev : ascii)
  (b matched after post : JS.str) :
  matchAnchorHere anchor prev b = Some (matched, after, post) ->
  JS.toLowerCase matched = JS.toLowerCase anchor.
Proof.
  unfold matchAnchorHere.
  destruct (wordBoundary _ _ && startsWithI anchor b && _) eqn:E; [|discriminate].
  destruct (splitCloseP _) as [[[i c] r]|]; [|discriminate].
  intros H. injection H as <- _ _.
  apply andb_true_iff in E. destruct E as [E _].
  apply andb_true_iff in E. destruct E as [_ E].
  apply startsWithI_firstn. assumption.
Qed.

Lemma scanAnchor_matched (anchor : JS.str) (b : JS.str) :
  forall prev before matched after post,
    scanAnchor anchor prev b = Some (before, matched, after, post) ->
    JS.toLowerCase matched = JS.toLowerCase anchor.
Proof.
  induction b as [|c b IH]; intros prev before matched after post;
    cbn [scanAnchor].
  - destruct (matchAnchorHere anchor prev []) as [[[m a] r]|] eqn:E.
    + intros H. injection H as _ <- _ _.
      eapply matchAnchorHere_matched. eassumption.
    + destruct (atCloseP []); discriminate.
  - destruct (matchAnchorHere anchor prev (c :: b)) as [[[m a] r]|] eqn:E.
    + intros H. injection H as _ <- _ _.
      eapply matchAnchorHere_matched. eassumption.
    + destruct (atCloseP (c :: b)); [discriminate|].
      destruct (scanAnchor anchor c b) as [[[[b' m'] a'] r']|] eqn:E';
        [|discriminate].
      intros H. injection H as _ <- _ _. eapply IH. eassumption.
Qed.

(** The matched text is the anchor up to case. *)
Lemma execAnchor_matched (anchor : JS.str) (s : JS.str) :
  forall m,
    execAnchor anchor s = Some m ->
    JS.toLowerCase (m_matched m) = JS.toLowerCase anchor.
Proof.
  induction s as [|c s IH]; intros m; cbn [execAnchor].
  - unfold matchBlockAt. simpl. discriminate.
  - destruct (matchBlockAt anchor (c :: s)) as [[[[[o b] x] a] r]|] eqn:E.
    + intros H. injection H as <-. simpl. unfold matchBlockAt in E.
      destruct (openP (c :: s)) as [[lt_p t]|]; [|discriminate].
      destruct (splitGt t) as [[attrs body]|]; [|discriminate].
      destruct (scanAnchor anchor ">"%char body) as [[[[b0 m0] a0] r0]|] eqn:Es;
        [|discriminate].
      injection E as _ _ <- _ _. eapply scanAnchor_matched. eassumption.
    + destruct (execAnchor anchor s) as [m'|]; [|discriminate].
      intros H. injection H as <-. simpl. apply IH. reflexivity.
Qed.

Lemma insertionOf_spec (result : JS.str) (link : InternalLink)
  (m : AnchorMatch) (u : JS.str) :
  insertionOf result link = Some (m, u) ->
  result = m_pre m ++ fullParagraph m ++ m_post m
  /\ 3 <= length (m_open m) /\ 4 <= length (m_after m)
  /\ JS.testAnchorTag (fullParagraph m) = false
  /\ u = linkUrl link.
Proof.
  unfold insertionOf. destruct (_ || _); [discriminate|].
  destruct (execAnchor _ result) as [m'|] eqn:E; [|discriminate].
  destruct (JS.testAnchorTag (fullParagraph m')) eqn:T; [discriminate|].
  intros H. injection H as <- <-. apply execAnchor_decomp in E. tauto.
Qed.

Lemma injectStep_insertionOf (result : JS.str) (link : InternalLink) :
  injectStep result link
  = match insertionOf result link with
    | Some (m, u) => splice m u
    | None => result
    end.
Proof.
  unfold injectStep, insertionOf. destruct (_ || _); [reflexivity|].
  destruct (execAnchor _ result) as [m|]; [|reflexivity].
  destruct (JS.testAnchorTag (fullParagraph m)); reflexivity.
Qed.

(** X23. When the first block that holds the anchor has no link, the
    loop wraps the matched text, as the document spells it, in the tag. *)
Lemma injectStep_wraps_first_block (result : JS.str) (link : InternalLink)
  (m : AnchorMatch) :
  4 <= length (linkAnchor link) -> 1 <= length (linkUrl link) ->
  execAnchor (linkAnchor link) result = Some m ->
  JS.testAnchorTag (fullParagraph m) = false ->
  result
  = (m_pre m ++ m_open m ++ m_before m)
    ++ m_matched m ++ m_after m ++ m_post m
  /\ injectStep result link
     = (m_pre m ++ m_open m ++ m_before m)
       ++ openTag (linkUrl link) ++ m_matched m ++ closeTag
       ++ m_after m ++ m_post m
  /\ JS.toLowerCase (m_matched m) = JS.toLowerCase (linkAnchor link).
Proof.
  intros Ha Hu E T. repeat split.
  - apply execAnchor_decomp in E. destruct E as (E & _).
    rewrite E at 1. unfold fullParagraph. rewrite <- !app_assoc. reflexivity.
  - assert ((length (linkAnchor link) =? 0) || (length (linkUrl link) =? 0)
            || (length (linkAnchor link) <? 4) = false) as G.
    { apply orb_false_iff; split; [apply orb_false_iff; split|];
        [apply Nat.eqb_neq | apply Nat.eqb_neq | apply Nat.ltb_ge]; lia. }
    unfold injectStep. rewrite G, E, T.
    unfold splice. rewrite <- !app_assoc. reflexivity.
  - eapply execAnchor_matched. eassumption.
Qed.

Lemma traceStep_doc (t : Trace) (link : InternalLink) :
  tr_doc (traceStep t link) = injectStep (tr_doc t) link.
Proof.
  unfold traceStep. rewrite injectStep_insertionOf.
  destruct (insertionOf (tr_doc t) link) as [[m u]|]; reflexivity.
Qed.

(** The logged run rewrites the document as the injector does. *)
Lemma injectTrace_doc (e : SOTAInternalLinkEngine) (html : JS.str)
  (links : list InternalLink) :
  tr_doc (injectTrace html links) = injectContextualLinks e html links.
Proof.
  unfold injectContextualLinks, injectTrace.
  destruct links as [|l links]; [reflexivity|]. cbn [length Nat.eqb].
  generalize (l :: links) as ls.
  assert (forall ls t, tr_doc (fold_left traceStep ls t)
                       = fold_left injectStep ls (tr_doc t)) as H.
  { induction ls as [|x ls IH]; intros t; simpl; [reflexivity|].
    rewrite IH, traceStep_doc. reflexivity. }
  intros ls. rewrite H. reflexivity.
Qed.

(** ** Where [<a ] stands *)

Lemma tagAt_bound (q : nat) (s : JS.str) : tagAt q s -> q + 3 <= length s.
Proof.
  unfold tagAt. intros H.
  assert (length (firstn 3 (skipn q s)) = 3) as L by (rewrite H; reflexivity).
  rewrite length_firstn, length_skipn in L. lia.
Qed.

Lemma tagAt_inside (X Y Z : JS.str) (q : nat) :
  tagAt q (X ++ Y ++ Z) -> covers (length X) (length Y) q ->
  tagAt (q - length X) Y.
Proof.
  unfold tagAt, covers. intros H [H1 H2].
  rewrite skipn_app, (skipn_all2 X), app_nil_l in H by lia.
  rewrite skipn_app in H.
  replace (q - length X - length Y) with 0 in H by lia.
  rewrite skipn_O, firstn_app, length_skipn in H.
  replace (3 - (length Y - (q - length X))) with 0 in H by lia.
  rewrite firstn_O, app_nil_r in H. assumption.
Qed.

Lemma tagAt_prefix (X R R' : JS.str) (q : nat) :
  q + 3 <= length X -> tagAt q (X ++ R) -> tagAt q (X ++ R').
Proof.
  unfold tagAt. intros Hq H.
  rewrite skipn_app, firstn_app, length_skipn in H.
  rewrite skipn_app, firstn_app, length_skipn.
  replace (3 - (length X - q)) with 0 in H by lia.
  replace (3 - (length X - q)) with 0 by lia.
  rewrite firstn_O, app_nil_r in H. rewrite firstn_O, app_nil_r. assumption.
Qed.

Lemma tagAt_suffix (X X' R : JS.str) (q : nat) :
  length X <= q -> tagAt q (X ++ R) ->
  tagAt (q - length X + length X') (X' ++ R).
Proof.
  unfold tagAt. intros Hq H.
  rewrite skipn_app, (skipn_all2 X), app_nil_l in H by lia.
  rewrite skipn_app, (skipn_all2 X'), app_nil_l by lia.
  replace (q - length X + length X' - length X') with (q - length X) by lia.
  assumption.
Qed.

Lemma tagAt_here (A R : JS.str) (u : JS.str) :
  tagAt (length A) (A ++ openTag u ++ R).
Proof.
  unfold tagAt. rewrite skipn_app, skipn_all, Nat.sub_diag. reflexivity.
Qed.

Lemma testAnchorTag_cons (c : ascii) (s : JS.str) :
  JS.testAnchorTag s = true -> JS.testAnchorTag (c :: s) = true.
Proof.
  destruct s as [|c2 [|c3 s]]; simpl; try discriminate.
  intros ->. apply orb_true_r.
Qed.

Lemma tagAt_test (q : nat) :
  forall s, tagAt q s -> JS.testAnchorTag s = true.
Proof.
  induction q as [|q IH]; intros s H.
  - unfold tagAt in H. simpl in H.
    destruct s as [|c1 [|c2 [|c3 s]]]; try discriminate.
    injection H as -> -> ->. reflexivity.
  - destruct s as [|c s]; [discriminate|].
    apply testAnchorTag_cons, IH. exact H.
Qed.

(** ** The logged run: its invariant *)

Lemma block_has_no_tag (m : AnchorMatch) (result : JS.str) (q : nat) :
  result = m_pre m ++ fullParagraph m ++ m_post m ->
  JS.testAnchorTag (fullParagraph m) = false ->
  tagAt q result ->
  ~ covers (length (m_pre m)) (length (fullParagraph m)) q.
Proof.
  intros -> Ht Hq Hc. apply tagAt_inside in Hq; [|assumption].
  apply tagAt_test in Hq. congruence.
Qed.

Lemma splice_eq (m : AnchorMatch) (u : JS.str) :
  splice m u
  = (m_pre m ++ m_open m ++ m_before m)
    ++ openTag u ++ m_matched m ++ closeTag ++ m_after m ++ m_post m.
Proof. unfold splice. rewrite <- !app_assoc. reflexivity. Qed.

Lemma shiftOffset_tagAt (m : AnchorMatch) (u result : JS.str) (q : nat) :
  result = m_pre m ++ fullParagraph m ++ m_post m ->
  3 <= length (m_open m) -> 4 <= length (m_after m) ->
  JS.testAnchorTag (fullParagraph m) = false ->
  tagAt q result -> tagAt (shiftOffset m u q) (splice m u).
Proof.
  intros E Ho Ha Ht Hq.
  pose proof (block_has_no_tag m result q E Ht Hq) as Hn.
  unfold covers, fullParagraph in Hn. rewrite !length_app in Hn.
  rewrite splice_eq. unfold shiftOffset, tagOffset.
  set (A := m_pre m ++ m_open m ++ m_before m).
  assert (result = A ++ m_matched m ++ m_after m ++ m_post m) as E'.
  { rewrite E. unfold A, fullParagraph. rewrite <- !app_assoc. reflexivity. }
  assert (length A = length (m_pre m) + (length (m_open m) + length (m_before m)))
    as HA by (unfold A; rewrite !length_app; reflexivity).
  rewrite E' in Hq.
  destruct (q <? length A) eqn:C1.
  - apply Nat.ltb_lt in C1.
    apply tagAt_prefix with (R := m_matched m ++ m_after m ++ m_post m);
      [lia | assumption].
  - apply Nat.ltb_ge in C1.
    destruct (q <? length A + length (m_matched m)) eqn:C2.
    + apply Nat.ltb_lt in C2. exfalso. apply Hn. lia.
    + apply Nat.ltb_ge in C2.
      rewrite (app_assoc A (m_matched m)) in Hq.
      pose proof (tagAt_suffix (A ++ m_matched m)
                    (A ++ openTag u ++ m_matched m ++ closeTag)
                    (m_after m ++ m_post m) q) as S.
      rewrite !length_app in S. specialize (S ltac:(lia) Hq).
      rewrite <- !app_assoc in S.
      replace (q + length (openTag u) + length closeTag)
        with (q - (length A + length (m_matched m))
              + (length A + (length (openTag u)
                             + (length (m_matched m) + length closeTag))))
        by lia.
      exact S.
Qed.

Lemma traceStep_inv (t : Trace) (link : InternalLink) :
  TraceInv t -> TraceInv (traceStep t link).
Proof.
  intros [Htags Hlog]. unfold traceStep.
  destruct (insertionOf (tr_doc t) link) as [[m u]|] eqn:E; [|split; assumption].
  apply insertionOf_spec in E. destruct E as (E & Ho & Ha & Ht & _).
  split; simpl.
  - apply Forall_app. split.
    + rewrite Forall_map. eapply Forall_impl; [|exact Htags].
      intros q Hq. apply (shiftOffset_tagAt m u (tr_doc t)); assumption.
    + repeat constructor. rewrite splice_eq. apply tagAt_here.
  - apply Forall_app. split; [assumption|]. repeat constructor; simpl; try assumption.
    eapply Forall_impl; [|exact Htags]. intros q Hq. split; [assumption|].
    eapply block_has_no_tag; eassumption.
Qed.

Lemma injectTrace_inv (html : JS.str) (links : list InternalLink) :
  TraceInv (injectTrace html links).
Proof.
  unfold injectTrace. apply fold_left_invariant.
  - intros t link _. apply traceStep_inv.
  - split; constructor.
Qed.

(** ** Paragraph extraction: spans and fuel *)

Lemma atCloseP_firstn (s : JS.str) :
  atCloseP s = true -> atCloseP (firstn 4 s) = true.
Proof.
  destruct s as [|c1 [|c2 [|c3 [|c4 s]]]]; simpl; try discriminate. auto.
Qed.

Lemma splitCloseP_close (s : JS.str) :
  forall inner close r,
    splitCloseP s = Some (inner, close, r) -> atCloseP close = true.
Proof.
  induction s as [|c s IH]; intros inner close r; rewrite splitCloseP_eq.
  - simpl. discriminate.
  - destruct (atCloseP (c :: s)) eqn:E.
    + generalize dependent (c :: s). intros s' E H.
      assert (close = firstn 4 s') as -> by congruence.
      apply atCloseP_firstn. assumption.
    + destruct (splitCloseP s) as [[[i' c'] r']|] eqn:E'; [|discriminate].
      intros H. injection H as _ <- _. eapply IH. reflexivity.
Qed.

Lemma matchParagraphAt_decomp (s m0 rest : JS.str) :
  matchParagraphAt s = Some (m0, rest) ->
  s = m0 ++ rest /\ 7 <= length m0
  /\ exists body close,
       m0 = body ++ close /\ length close = 4 /\ atCloseP close = true.
Proof.
  unfold matchParagraphAt.
  destruct (openP s) as [[lt_p t]|] eqn:Eo; [|discriminate].
  destruct (splitGt t) as [[attrs body]|] eqn:Eg; [|discriminate].
  destruct (splitCloseP body) as [[[inner close] r]|] eqn:Ec; [|discriminate].
  intros H. injection H as <- <-.
  apply openP_decomp in Eo. destruct Eo as [-> Hl].
  apply splitGt_decomp in Eg. subst t.
  pose proof (splitCloseP_close _ _ _ _ Ec) as Hclose.
  apply splitCloseP_decomp in Ec. destruct Ec as [-> Hc].
  repeat split.
  - rewrite <- !app_assoc. simpl. rewrite <- !app_assoc. reflexivity.
  - rewrite !length_app; simpl; rewrite length_app; lia.
  - exists (lt_p ++ attrs ++ ">"%char :: inner), close.
    repeat split; [|assumption..].
    rewrite <- !app_assoc. simpl. reflexivity.
Qed.

Lemma execParagraph_decomp (s : JS.str) :
  forall i m0 rest,
    execParagraph s = Some (i, m0, rest) ->
    exists skipped,
      s = skipped ++ m0 ++ rest /\ length skipped = i /\ 7 <= length m0
      /\ exists body close,
           m0 = body ++ close /\ length close = 4 /\ atCloseP close = true.
Proof.
  induction s as [|c s IH]; intros i m0 rest; cbn [execParagraph].
  - destruct (matchParagraphAt []) as [[m r]|] eqn:E; [|discriminate].
    intros H. injection H as <- <- <-. exists []. simpl.
    apply matchParagraphAt_decomp in E. tauto.
  - destruct (matchParagraphAt (c :: s)) as [[m r]|] eqn:E.
    + intros H. injection H as <- <- <-. exists []. simpl.
      apply matchParagraphAt_decomp in E. tauto.
    + destruct (execParagraph s) as [[[i' m'] r']|]; [|discriminate].
      intros H. injection H as <- <- <-.
      destruct (IH _ _ _ eq_refl) as (sk & -> & Hl & Hm).
      exists (c :: sk). simpl. auto.
Qed.

(** Fuel beyond the length of the text changes nothing: the loop of
    [extractParagraphs] always runs to its end. *)
Lemma extractLoop_fuel (f1 : nat) :
  forall f2 s off idx cum0,
    length s <= f1 -> length s <= f2 ->
    extractLoop f1 s off idx cum0 = extractLoop f2 s off idx cum0.
Proof.
  assert (forall f off idx cum0, extractLoop f [] off idx cum0 = []) as Hnil
    by (intros [|f]; reflexivity).
  induction f1 as [|f1 IH]; intros f2 s off idx cum0 H1 H2.
  - destruct s; [|simpl in H1; lia]. rewrite !Hnil. reflexivity.
  - destruct f2 as [|f2].
    + destruct s; [|simpl in H2; lia]. rewrite !Hnil. reflexivity.
    + cbn [extractLoop].
      destruct (execParagraph s) as [[[i m0] rest]|] eqn:E; [|reflexivity].
      apply execParagraph_decomp in E. destruct E as (sk & -> & Hl & Hm & _).
      rewrite !length_app in H1, H2. f_equal. apply IH; lia.
Qed.

Lemma extractLoop_spans (r : JS.str) (fuel : nat) :
  forall s off idx cum0 pre,
    r = pre ++ s -> length pre = off ->
    Forall (spanOK r) (extractLoop fuel s off idx cum0).
Proof.
  induction fuel as [|fuel IH]; intros s off idx cum0 pre Hr Hoff; simpl;
    [constructor|].
  destruct (execParagraph s) as [[[i m0] rest]|] eqn:E; [|constructor].
  apply execParagraph_decomp in E. destruct E as (sk & -> & Hl & Hm & Hc).
  constructor.
  - unfold spanOK; simpl. repeat split; [|exact Hc].
    rewrite Hr, app_assoc.
    rewrite skipn_app, skipn_all2, app_nil_l by (rewrite length_app; lia).
    replace (off + i - length (pre ++ sk)) with 0
      by (rewrite length_app; lia).
    rewrite skipn_O, firstn_app, Nat.sub_diag, firstn_O, app_nil_r, firstn_all.
    reflexivity.
  - apply (IH rest _ _ _ (pre ++ sk ++ m0)).
    + rewrite Hr, <- !app_assoc. reflexivity.
    + rewrite !length_app. lia.
Qed.

Lemma extractParagraphs_spans (r : JS.str) :
  Forall (spanOK r) (extractParagraphs r).
Proof. apply (extractLoop_spans r _ r 0 0 0%Z []); reflexivity. Qed.

(** A paragraph whose span covers a [<a ] of the document is flagged. *)
Lemma covered_tag_hasLink (r : JS.str) (p : ParagraphInfo) (q : nat) :
  In p (extractParagraphs r) -> tagAt q r ->
  startOffset p <= q -> q + 3 <= endOffset p ->
  hasLink p = true.
Proof.
  intros Hp Hq H1 H2.
  pose proof (extractParagraphs_spans r) as F. rewrite Forall_forall in F.
  destruct (F p Hp) as (Eh & Ee & El & _). rewrite El.
  apply tagAt_test with (q := q - startOffset p).
  pose proof (tagAt_bound _ _ Hq) as Hb.
  rewrite <- (firstn_skipn (startOffset p) r) in Hq.
  rewrite <- (firstn_skipn (length (html p)) (skipn (startOffset p) r)) in Hq.
  rewrite <- Eh in Hq.
  apply tagAt_inside in Hq.
  - rewrite firstn_length_le in Hq by lia. assumption.
  - unfold covers. rewrite firstn_length_le by lia. lia.
Qed.

Lemma skipn_app_le {A} (X Y : list A) (n : nat) :
  length X <= n -> skipn n (X ++ Y) = skipn (n - length X) Y.
Proof.
  intros H. rewrite skipn_app, skipn_all2, app_nil_l by assumption. reflexivity.
Qed.

(** A [<a ] that starts inside a paragraph lies inside it whole: the
    paragraph ends with [</p>]. *)
Lemma tag_start_in_paragraph (r : JS.str) (p : ParagraphInfo) (q : nat) :
  In p (extractParagraphs r) -> tagAt q r ->
  startOffset p <= q -> q < endOffset p ->
  q + 3 <= endOffset p.
Proof.
  intros Hp Hq H1 H2.
  pose proof (extractParagraphs_spans r) as F. rewrite Forall_forall in F.
  destruct (F p Hp) as (Eh & Ee & _ & body & close & Eb & Hl & Hc).
  pose proof (tagAt_bound _ _ Hq) as Hb.
  destruct (le_lt_dec (q + 3) (endOffset p)) as [|Hgt]; [assumption|exfalso].
  destruct close as [|c1 [|c2 [|c3 [|c4 [|? ?]]]]]; try discriminate Hl.
  simpl in Hc. rewrite !andb_true_iff, !Ascii.eqb_eq in Hc.
  destruct Hc as [[[_ _] H3] H4].
  rewrite Eb, length_app in Ee. simpl in Ee.
  rewrite <- (firstn_skipn (startOffset p) r) in Hq.
  rewrite <- (firstn_skipn (length (html p)) (skipn (startOffset p) r)) in Hq.
  rewrite <- Eh, Eb, <- app_assoc in Hq. unfold tagAt in Hq.
  rewrite skipn_app_le in Hq by (rewrite firstn_length_le; lia).
  rewrite skipn_app_le in Hq by (rewrite firstn_length_le; lia).
  rewrite firstn_length_le in Hq by lia.
  destruct (q - startOffset p - length body) as [|[|[|[|k]]]] eqn:K; try lia.
  - simpl in Hq. inversion Hq; subst. vm_compute in H3. discriminate.
  - simpl in Hq. inversion Hq; subst. discriminate.
Qed.

(** ** Properties of [injectContextualLinks] *)

(** C6, amended.  After [injectContextualLinks], every paragraph of the
    resulting HTML inside which a tag inserted by the call starts holds
    [<a ] there and is flagged as linked, and a later
    [generateLinkOpportunities] on that HTML returns no link in it.
    [q] ranges over the offsets, in the result, of the inserted tags. *)
Theorem linked_paragraph_excluded_afterwards
  (e : SOTAInternalLinkEngine) (html : JS.str) (links : list InternalLink)
  (maxLinks : option float) (q : nat) (p : ParagraphInfo) :
  In q (tr_tags (injectTrace html links)) ->
  In p (extractParagraphs (injectContextualLinks e html links)) ->
  startOffset p <= q -> q < endOffset p ->
  tagAt q (injectContextualLinks e html links)
  /\ hasLink p = true
  /\ ~ In (index p)
         (map paraIndex
            (selectCandidates e (injectContextualLinks e html links) maxLinks)).
Proof.
  intros Hq Hp H1 H2.
  pose proof (proj1 (injectTrace_inv html links)) as Htags.
  rewrite Forall_forall in Htags. specialize (Htags q Hq).
  rewrite (injectTrace_doc e) in Htags.
  assert (q + 3 <= endOffset p) as H3
    by (eapply tag_start_in_paragraph; eassumption).
  assert (hasLink p = true) as Hl by (eapply covered_tag_hasLink; eassumption).
  repeat split; [assumption | assumption |].
  intros Hin. apply in_map_iff in Hin. destruct Hin as [c [E Hc]].
  apply selectCandidates_sound, collectCandidates_In in Hc.
  destruct Hc as (Hin & Hno & _).
  rewrite (extractParagraphs_index_inj _ _ _ Hin Hp E) in Hno. congruence.
Qed.



(** ** The engine on concrete documents *)

(** The sourdough paragraph yields an anchor of the window loops with
    the words "sourdough" and "baking". *)
Example sourdough_anchor :
  findBestAnchor sourdoughText (mkPage "/guides/sourdough" "Sourdough Baking Guide")
  = Some (("guide to sourdough baking" : JS.str), 87%float).
Proof. vm_compute. reflexivity. Qed.

(** Two links, in document order and 264 words apart. *)
Example two_spaced_links :
  map (fun c => (paraIndex c, paraCumWords c))
    (selectCandidates twoEngine spacedHtml None)
  = [(0, 12%Z); (2, 276%Z)].
Proof. vm_compute. reflexivity. Qed.

(** The run on [plainHtml] inserts two tags; the second insertion knows
    of the first. *)
Example plain_insertions :
  tr_tags (injectTrace plainHtml plainLinks) = [7; 226]
  /\ map ins_earlier (tr_log (injectTrace plainHtml plainLinks)) = [[]; [7]].
Proof. split; vm_compute; reflexivity. Qed.

(** C3, counterexample.  For the title "Big Data" no window of the
    13-word paragraph qualifies (each one that holds a title word
    starts or ends on a stop word), and the link that
    [generateLinkOpportunities] returns has the fallback's two words
    "big data" as its anchor, which is no run of 3 to 7 words of the
    paragraph. *)
Lemma fallback_anchor_has_two_words :
  map wordCount (extractParagraphs bigDataHtml) = [13%Z]
  /\ map link_anchor (generateLinkOpportunities bigDataEngine bigDataHtml None)
     = [("big data" : JS.str)]
  /\ findBestAnchor bigDataText (mkPage "/big-data" "Big Data")
     = Some (("big data" : JS.str), 34%float)
  /\ length (JS.splitWs "big data") = 2
  /\ ~ WindowAnchor bigDataText "big data".
Proof.
  split; [vm_compute; reflexivity|]. split; [vm_compute; reflexivity|].
  split; [vm_compute; reflexivity|]. split; [reflexivity|].
  intros H. apply isWindowAnchor_complete in H. vm_compute in H. discriminate.
Qed.

Lemma findBestAnchor_anchor_shape_witness :
  WindowAnchor sourdoughText "guide to sourdough baking"
  \/ FallbackAnchor sourdoughText "Sourdough Baking Guide"
       "guide to sourdough baking".
Proof.
  apply (findBestAnchor_anchor_shape sourdoughText
           (mkPage "/guides/sourdough" "Sourdough Baking Guide")
           "guide to sourdough baking" 87%float).
  vm_compute. reflexivity.
Defined.

(** C4.  The code on a paragraph where only the fallback finds the
    title "The Art of War": the returned anchor is "the art", whose
    first word is a stop word.  The window loops test the first and the
    last word against [STOP] ([windowLoop_no_stop_word]); the fallback
    loops do not. *)
Theorem fallback_anchor_starts_on_stop_word :
  map link_anchor (generateLinkOpportunities artEngine artHtml None)
  = [("the art" : JS.str)]
  /\ JS.has STOP (lettersOf (hd [] (JS.splitWs "the art"))) = true.
Proof. split; vm_compute; reflexivity. Qed.

(** C5.  The anchor stands in two paragraphs; the first holds a link
    and the second does not.  On the second paragraph alone the loop
    wraps the anchor, but on the document it stops at the first
    paragraph and leaves the document as it was. *)
Theorem inject_gives_up_at_linked_paragraph :
  map hasLink (extractParagraphs twiceHtml) = [true; false]
  /\ injectStep "<p>alpha beta again</p>" (mkLink "alpha beta" "/y")
     = "<p>" ++ openTag "/y" ++ "alpha beta" ++ closeTag ++ " again</p>"
  /\ injectContextualLinks sourdoughEngine twiceHtml [mkLink "alpha beta" "/y"]
     = twiceHtml.
Proof. repeat split; vm_compute; reflexivity. Qed.

(** C6, counterexample.  The catalog page's URL is [</p><p>].  The
    engine proposes one link for the document, and injecting it cuts
    the paragraph in two inside the inserted tag: the tag starts at
    offset 16, in the first paragraph of the result, while the linked
    text and its [</a>] stand in the second, which holds no [<a ], is
    not flagged as linked, and hosts the link that a second
    [generateLinkOpportunities] returns. *)
Lemma linked_text_paragraph_relinked :
  map link_anchor splitLinks = [("guide to sourdough baking" : JS.str)]
  /\ splitResult
     = "<p>The complete " ++ openTag "</p><p>"
       ++ "guide to sourdough baking</a> requires patience and the right flour every single day</p>"
  /\ tr_tags (injectTrace splitHtml splitLinks) = [16]
  /\ map (fun p => (startOffset p, endOffset p, hasLink p))
       (extractParagraphs splitResult)
     = [(0, 29, true); (29, 291, false)]
  /\ 29 <= 16 + length (openTag "</p><p>")
  /\ 16 + length (openTag "</p><p>")
       + length ("guide to sourdough baking</a>" : JS.str) <= 291
  /\ map paraIndex (selectCandidates splitEngine splitResult None) = [1]
  /\ length (generateLinkOpportunities splitEngine splitResult None) = 1.
Proof. repeat split; vm_compute; try reflexivity; lia. Qed.

Lemma linked_paragraph_excluded_afterwards_witness :
  tagAt 40 relinkedHtml
  /\ hasLink (nth 1 (extractParagraphs relinkedHtml) noParagraph) = true
  /\ ~ In (index (nth 1 (extractParagraphs relinkedHtml) noParagraph))
         (map paraIndex (selectCandidates sourdoughEngine relinkedHtml None)).
Proof.
  apply (linked_paragraph_excluded_afterwards sourdoughEngine sourdoughHtml
           (generateLinkOpportunities sourdoughEngine sourdoughHtml None)
           None 40 (nth 1 (extractParagraphs relinkedHtml) noParagraph)).
  - vm_compute. left. reflexivity.
  - vm_compute. right. left. reflexivity.
  - vm_compute. repeat constructor.
  - vm_compute. repeat constructor.
Defined.

Lemma short_paragraph_hosts_no_candidate_witness :
  ~ In (index (nth 0 (extractParagraphs sourdoughHtml) noParagraph))
      (map paraIndex
         (collectCandidates (pages sourdoughEngine)
            (extractParagraphs sourdoughHtml)))
  /\ ~ In (index (nth 0 (extractParagraphs sourdoughHtml) noParagraph))
         (map paraIndex (selectCandidates sourdoughEngine sourdoughHtml None)).
Proof.
  apply (short_paragraph_hosts_no_candidate sourdoughEngine sourdoughHtml None
           (nth 0 (extractParagraphs sourdoughHtml) noParagraph)).
  - vm_compute. left. reflexivity.
  - vm_compute. reflexivity.
Defined.


(** The block that the expression matches is not always one paragraph:
    an anchor that holds [</p>] makes it span two. *)
Example block_spans_two_paragraphs :
  option_map (fun m => (m_pre m, fullParagraph m, m_post m))
    (execAnchor "one</p><p>complete" "<p>part one</p><p>complete text</p>")
  = Some ([], ("<p>part one</p><p>complete text</p>" : JS.str), []).
Proof. vm_compute. reflexivity. Qed.


(** ** More on [generateLinkOpportunities] *)

Lemma selectLoop_limit (limit : float) (n : nat) (cs : list ScoredCandidate) :
  PrimFloat.leb limit (JS.num n) = true ->
  forall st,
    length (selected st) <= n ->
    length (selected (selectLoop limit cs st)) <= n.
Proof.
  intros Hn. induction cs as [|c cs IH]; intros st Hst; simpl; [assumption|].
  destruct (PrimFloat.leb limit (JS.num (length (selected st)))) eqn:E;
    [assumption|].
  assert (length (selected st) < n) as Hlt.
  { destruct (Nat.eq_dec (length (selected st)) n) as [Heq|]; [|lia].
    rewrite Heq in E. congruence. }
  destruct (JS.has _ _); [auto|].
  destruct (existsb _ _); [auto|].
  destruct (tooClose st c); [auto|].
  apply IH. simpl. rewrite length_app. simpl. lia.
Qed.

(** X1. The loop stops as soon as the number of accepted links reaches
    the limit: when [limit <= n] holds of the limit ([maxLinks], or 10
    without it) and a natural number [n], at most [n] links are
    returned. *)
Theorem generate_at_most_limit (e : SOTAInternalLinkEngine) (html : JS.str)
  (maxLinks : option float) (n : nat) :
  PrimFloat.leb (match maxLinks with Some l => l | None => 10%float end)
    (JS.num n) = true ->
  length (generateLinkOpportunities e html maxLinks) <= n.
Proof.
  intros H. unfold generateLinkOpportunities, selectCandidates.
  rewrite length_map. destruct (length (pages e) =? 0); [simpl; lia|].
  apply selectLoop_limit; [assumption | simpl; lia].
Qed.

Lemma generate_at_most_limit_witness :
  length (generateLinkOpportunities twoEngine spacedHtml None) <= 10
  /\ length (generateLinkOpportunities twoEngine spacedHtml (Some 1%float)) <= 1
  /\ length (generateLinkOpportunities twoEngine spacedHtml (Some 0%float)) <= 0.
Proof.
  repeat split.
  - apply (generate_at_most_limit twoEngine spacedHtml None 10). reflexivity.
  - apply (generate_at_most_limit twoEngine spacedHtml (Some 1%float) 1).
    reflexivity.
  - apply (generate_at_most_limit twoEngine spacedHtml (Some 0%float) 0).
    reflexivity.
Defined.

(** X2. Every returned link is backed by a candidate: it points to a
    page of the catalog, its paragraph is an extracted paragraph of the
    document with at least 12 words and no link, its anchor and
    priority are what [findBestAnchor] returns for that paragraph and
    page, and its context is the first 120 characters of the
    paragraph's text. *)
Theorem generate_links_from_catalog (e : SOTAInternalLinkEngine)
  (html : JS.str) (maxLinks : option float) (l : InternalLink) :
  In l (generateLinkOpportunities e html maxLinks) ->
  exists pg p,
    In pg (pages e) /\ In p (extractParagraphs html)
    /\ hasLink p = false /\ (12 <= wordCount p)%Z
    /\ findBestAnchor (text p) pg = Some (link_anchor l, link_priority l)
    /\ link_targetUrl l = url pg /\ link_url l = url pg
    /\ link_anchorText l = link_anchor l /\ link_text l = link_anchor l
    /\ link_context l = JS.substring (text p) 0 120.
Proof.
  unfold generateLinkOpportunities. intros H. apply in_map_iff in H.
  destruct H as [c [<- Hc]].
  apply selectCandidates_sound, collectCandidates_In in Hc.
  destruct Hc as (Hp & Hl & Hw & Hpg & Hf).
  exists (page c), (paragraph c). simpl. repeat split; assumption.
Qed.

Lemma generate_links_from_catalog_witness :
  exists pg p,
    In pg (pages sourdoughEngine) /\ In p (extractParagraphs sourdoughHtml)
    /\ hasLink p = false /\ (12 <= wordCount p)%Z
    /\ findBestAnchor (text p) pg
       = Some (link_anchor sourdoughLink, link_priority sourdoughLink)
    /\ link_targetUrl sourdoughLink = url pg
    /\ link_url sourdoughLink = url pg
    /\ link_anchorText sourdoughLink = link_anchor sourdoughLink
    /\ link_text sourdoughLink = link_anchor sourdoughLink
    /\ link_context sourdoughLink = JS.substring (text p) 0 120.
Proof.
  apply (generate_links_from_catalog sourdoughEngine sourdoughHtml None
           sourdoughLink).
  vm_compute. left. reflexivity.
Defined.

(** ** Scores *)

Lemma SFcompare_refl (f : spec_float) :
  f <> S754_nan -> SFcompare f f = Some Eq.
Proof.
  destruct f as [s|s| |s m e]; simpl; intros H; try congruence.
  - destruct s; reflexivity.
  - rewrite Z.compare_refl.
    assert (PosDef.Pos.compare_cont Eq m m = Eq) as -> by apply Pos.compare_refl.
    destruct s; reflexivity.
Qed.

Lemma leb_not_nan (x y : float) :
  PrimFloat.leb x y = true -> PrimFloat.is_nan y = false.
Proof.
  rewrite FloatAxioms.leb_spec. unfold PrimFloat.is_nan. rewrite FloatAxioms.eqb_spec.
  unfold SFleb, SFeqb. intros H.
  rewrite SFcompare_refl; [reflexivity|].
  intros E. rewrite E in H. destruct (Prim2SF x); discriminate.
Qed.

Lemma ltb_leb (x y : float) :
  PrimFloat.ltb x y = true -> PrimFloat.leb x y = true.
Proof.
  rewrite FloatAxioms.ltb_spec, FloatAxioms.leb_spec. unfold SFltb, SFleb.
  destruct (SFcompare _ _) as [[| |]|]; congruence.
Qed.

Lemma min_100_range (sc : float) :
  PrimFloat.leb 10 sc = true ->
  PrimFloat.leb 10 (JS.min 100 sc) = true
  /\ PrimFloat.leb (JS.min 100 sc) 100 = true.
Proof.
  intros H. unfold JS.min. rewrite (leb_not_nan _ _ H).
  change (PrimFloat.is_nan 100) with false. cbn [orb].
  destruct (PrimFloat.ltb sc 100) eqn:E.
  - split; [assumption | apply ltb_leb; assumption].
  - split; reflexivity.
Qed.

Lemma findBestAnchor_score (paraText : JS.str) (pg : SitePage)
  (a : JS.str) (sc : float) :
  findBestAnchor paraText pg = Some (a, sc) -> PrimFloat.leb 10 sc = true.
Proof.
  unfold findBestAnchor.
  destruct (length _ =? 0); [discriminate|].
  destruct (length (JS.splitWs paraText) <? 5); [discriminate|].
  destruct (if needsFallback _ then _ else _) as [[x y]|]; [|discriminate].
  destruct (PrimFloat.leb 10 y) eqn:E; [|discriminate].
  intros H. injection H as _ <-. assumption.
Qed.

(** X3. Every returned link has a priority of at least 10, and its
    relevance score lies between 10 and 100. *)
Theorem generate_score_range (e : SOTAInternalLinkEngine) (html : JS.str)
  (maxLinks : option float) (l : InternalLink) :
  In l (generateLinkOpportunities e html maxLinks) ->
  PrimFloat.leb 10 (link_priority l) = true
  /\ PrimFloat.leb 10 (link_relevanceScore l) = true
  /\ PrimFloat.leb (link_relevanceScore l) 100 = true.
Proof.
  unfold generateLinkOpportunities. intros H. apply in_map_iff in H.
  destruct H as [c [<- Hc]].
  apply selectCandidates_sound, collectCandidates_In in Hc.
  destruct Hc as (_ & _ & _ & _ & Hf). apply findBestAnchor_score in Hf.
  simpl. split; [assumption | apply min_100_range; assumption].
Qed.

Lemma generate_score_range_witness :
  PrimFloat.leb 10 (link_priority sourdoughLink) = true
  /\ PrimFloat.leb 10 (link_relevanceScore sourdoughLink) = true
  /\ PrimFloat.leb (link_relevanceScore sourdoughLink) 100 = true.
Proof.
  apply (generate_score_range sourdoughEngine sourdoughHtml None sourdoughLink).
  vm_compute. left. reflexivity.
Defined.

(** ** The length of an anchor *)

Lemma dropSpaces_length (s : JS.str) : length (JS.dropSpaces s) <= length s.
Proof.
  induction s as [|c s IH]; simpl; [lia|].
  destruct (JS.isSpace c); simpl; lia.
Qed.

Lemma trim_length (s : JS.str) : length (JS.trim s) <= length s.
Proof.
  unfold JS.trim. rewrite length_rev.
  etransitivity; [apply dropSpaces_length|]. rewrite length_rev.
  apply dropSpaces_length.
Qed.

Lemma blankUnless_length (keep : ascii -> bool) (s : JS.str) :
  length (blankUnless keep s) = length s.
Proof. apply length_map. Qed.

Lemma windowLoop_length (words titleStems allTargetStems : list JS.str) :
  anchorsAre (fun a => 8 <= length a)
    (windowLoop words titleStems allTargetStems).
Proof.
  unfold windowLoop.
  apply fold_left_invariant; [|intros a sc E; discriminate].
  intros best len _ Hbest.
  apply fold_left_invariant; [|assumption].
  intros best' i _ Hbest'. unfold windowStep.
  set (phrase := JS.joinSp (JS.slice words i (i + len))).
  destruct (length (JS.trim (blankUnless isTokenCharI phrase)) <? 8) eqn:E;
    [assumption|].
  apply Nat.ltb_ge in E.
  pose proof (trim_length (blankUnless isTokenCharI phrase)) as Ht.
  rewrite blankUnless_length in Ht.
  destruct (length _ =? 0); [assumption|].
  destruct (_ || _); [assumption|].
  destruct (_ =? 0); [assumption|].
  destruct (better best' _); [|assumption].
  intros a sc H. injection H as <- _. lia.
Qed.

Lemma joinSp_length (ws : list JS.str) :
  Forall (fun w => 3 <= length w) ws ->
  4 * length ws <= length (JS.joinSp ws) + 1.
Proof.
  induction 1 as [|w ws Hw Hws IH]; [simpl; lia|].
  destruct ws as [|w' ws']; [simpl; lia|].
  change (JS.joinSp (w :: w' :: ws'))
    with (w ++ " "%char :: JS.joinSp (w' :: ws')).
  rewrite length_app. simpl length in *. lia.
Qed.

Lemma titleWordsOf_long (t : JS.str) :
  Forall (fun w => 3 <= length w) (titleWordsOf t).
Proof.
  unfold titleWordsOf. apply Forall_forall. intros w H.
  apply filter_In in H. destruct H as [_ H]. apply Nat.ltb_lt in H. lia.
Qed.

Lemma slice_length {A} (l : list A) (i len : nat) :
  i + len <= length l -> length (JS.slice l i (i + len)) = len.
Proof.
  intros H. unfold JS.slice. rewrite length_firstn, length_skipn. lia.
Qed.

Lemma slice_Forall {A} (P : A -> Prop) (l : list A) (i j : nat) :
  Forall P l -> Forall P (JS.slice l i j).
Proof.
  intros H. unfold JS.slice. apply Forall_forall. intros x Hx.
  rewrite Forall_forall in H. apply H.
  rewrite <- (firstn_skipn i l). apply in_or_app. right.
  rewrite <- (firstn_skipn (j - i) (skipn i l)). apply in_or_app. left.
  assumption.
Qed.

(** When lower-casing keeps the length of the paragraph text, the
    snippet found at [pos] in the lower-cased text fits into the
    paragraph text at [pos], so that a fallback anchor has the length
    of its snippet. *)
Lemma FallbackAnchor_length (paraText pageTitle a : JS.str) :
  length (JS.toLowerCase paraText) = length paraText ->
  FallbackAnchor paraText pageTitle a -> 7 <= length a.
Proof.
  intros Hp (i & len & pos & Hlen & Hi & E & ->).
  apply indexOf_found in E. apply (f_equal (@length ascii)) in E.
  rewrite length_firstn, length_skipn, Hp, toLowerCase_length in E.
  unfold JS.substring. rewrite length_firstn, length_skipn.
  pose proof (joinSp_length (JS.slice (titleWordsOf pageTitle) i (i + len))
                (slice_Forall _ _ _ _ (titleWordsOf_long pageTitle))) as H.
  rewrite slice_length in H by assumption. lia.
Qed.

Lemma anchor_at_least_7 (paraText : JS.str) (pg : SitePage)
  (a : JS.str) (sc : float) :
  length (JS.toLowerCase paraText) = length paraText ->
  findBestAnchor paraText pg = Some (a, sc) -> 7 <= length a.
Proof.
  intros Hp. unfold findBestAnchor.
  destruct (length _ =? 0); [discriminate|].
  destruct (length (JS.splitWs paraText) <? 5); [discriminate|].
  set (w := windowLoop _ _ _).
  assert (anchorsAre (fun a => 8 <= length a) w) as Hw
    by apply windowLoop_length.
  assert (anchorsAre
            (fun a => 8 <= length a \/ FallbackAnchor paraText (title pg) a)
            (if needsFallback w then fallbackLoop paraText (title pg) w else w))
    as Hb.
  { destruct (needsFallback w); [apply fallbackLoop_shape; assumption|].
    intros x y E. left. eauto. }
  destruct (if needsFallback w then _ else w) as [[x y]|]; [|discriminate].
  destruct (PrimFloat.leb 10 y); [|discriminate].
  intros E. injection E as <- <-.
  destruct (Hb _ _ eq_refl) as [H|H]; [lia|].
  eapply FallbackAnchor_length; eassumption.
Qed.

(** X4. When lower-casing keeps the length of the paragraph text (as
    it does on the alphabet of the embedding), an anchor that
    [findBestAnchor] returns has at least 7 characters. *)
Theorem findBestAnchor_anchor_length (paraText : JS.str) (pg : SitePage)
  (a : JS.str) (sc : float) :
  length (JS.toLowerCase paraText) = length paraText ->
  findBestAnchor paraText pg = Some (a, sc) -> 7 <= length a.
Proof. apply anchor_at_least_7. Qed.

Lemma findBestAnchor_anchor_length_witness :
  7 <= length (link_anchor sourdoughLink).
Proof.
  apply (findBestAnchor_anchor_length sourdoughText
           (mkPage "/guides/sourdough" "Sourdough Baking Guide")
           (link_anchor sourdoughLink) (link_priority sourdoughLink)).
  - vm_compute. reflexivity.
  - vm_compute. reflexivity.
Defined.

(** X5. When lower-casing keeps the length of the text of every
    paragraph of the document (as it does on the alphabet of the
    embedding), the anchors that [generateLinkOpportunities] returns
    are long enough for [injectContextualLinks]: none is rejected by
    its test on the anchor's length. *)
Theorem generated_anchor_passes_length_test (e : SOTAInternalLinkEngine)
  (html : JS.str) (maxLinks : option float) (l : InternalLink) :
  Forall (fun p => length (JS.toLowerCase (text p)) = length (text p))
    (extractParagraphs html) ->
  In l (generateLinkOpportunities e html maxLinks) ->
  (length (linkAnchor l) =? 0) || (length (linkAnchor l) <? 4) = false.
Proof.
  unfold generateLinkOpportunities. intros Hlow H. apply in_map_iff in H.
  destruct H as [c [<- Hc]].
  apply selectCandidates_sound, collectCandidates_In in Hc.
  destruct Hc as (Hp & _ & _ & _ & Hf).
  rewrite Forall_forall in Hlow.
  apply (anchor_at_least_7 _ _ _ _ (Hlow _ Hp)) in Hf.
  unfold linkAnchor, orElse. simpl.
  destruct (length (anchor c)) as [|[|[|[|n]]]] eqn:E; try lia.
  simpl. rewrite E. reflexivity.
Qed.

Lemma generated_anchor_passes_length_test_witness :
  (length (linkAnchor sourdoughLink) =? 0)
  || (length (linkAnchor sourdoughLink) <? 4) = false.
Proof.
  apply (generated_anchor_passes_length_test sourdoughEngine sourdoughHtml None
           sourdoughLink).
  - vm_compute. repeat constructor.
  - vm_compute. left. reflexivity.
Defined.

(** ** More on [extractParagraphs] *)

Lemma extractLoop_bookkeeping (fuel : nat) :
  forall s off idx cum0,
    let ps := extractLoop fuel s off idx cum0 in
    map index ps = seq idx (length ps)
    /\ map cumulativeWords ps = runningTotals cum0 (map wordCount ps)
    /\ Forall (fun p => text p = JS.trim (JS.stripTags (html p))
                        /\ wordCount p = countWords (text p)
                        /\ hasLink p = JS.testAnchorTag (html p)) ps.
Proof.
  induction fuel as [|fuel IH]; intros s off idx cum0; simpl.
  - repeat split; constructor.
  - destruct (execParagraph s) as [[[i m0] rest]|]; simpl;
      [|repeat split; constructor].
    destruct (IH rest (off + i + length m0) (S idx)
                (cum0 + countWords (JS.trim (JS.stripTags m0)))%Z)
      as (Hi & Hc & Hf).
    repeat split.
    + f_equal. assumption.
    + f_equal. assumption.
    + constructor; [simpl; auto | assumption].
Qed.

(** X6. The paragraphs are numbered 0, 1, 2, ... in the order of the
    list, their cumulative word counts are the running totals of their
    word counts, and each paragraph's text, word count and link flag
    are computed from its own markup. *)
Theorem extractParagraphs_bookkeeping (doc : JS.str) :
  map index (extractParagraphs doc) = seq 0 (length (extractParagraphs doc))
  /\ map cumulativeWords (extractParagraphs doc)
     = runningTotals 0 (map wordCount (extractParagraphs doc))
  /\ Forall (fun p => text p = JS.trim (JS.stripTags (html p))
                      /\ wordCount p = countWords (text p)
                      /\ hasLink p = JS.testAnchorTag (html p))
       (extractParagraphs doc).
Proof. apply extractLoop_bookkeeping. Qed.

Lemma matchParagraphAt_open (s m0 rest : JS.str) :
  matchParagraphAt s = Some (m0, rest) -> exists o t, openP m0 = Some (o, t).
Proof.
  unfold matchParagraphAt.
  destruct s as [|c1 [|c2 s]]; try (simpl; discriminate). simpl openP.
  destruct (Ascii.eqb c1 "<"%char && Ascii.eqb (JS.lowerChar c2) "p"%char) eqn:E;
    [|discriminate].
  destruct (splitGt s) as [[attrs body]|]; [|discriminate].
  destruct (splitCloseP body) as [[[inner close] r]|]; [|discriminate].
  intros H. injection H as <- _. simpl. rewrite E. eauto.
Qed.

Lemma execParagraph_open (s : JS.str) :
  forall i m0 rest,
    execParagraph s = Some (i, m0, rest) -> exists o t, openP m0 = Some (o, t).
Proof.
  induction s as [|c s IH]; intros i m0 rest; cbn [execParagraph].
  - destruct (matchParagraphAt []) as [[m r]|] eqn:E; [|discriminate].
    intros H. injection H as _ <- _. eapply matchParagraphAt_open. eassumption.
  - destruct (matchParagraphAt (c :: s)) as [[m r]|] eqn:E.
    + intros H. injection H as _ <- _. eapply matchParagraphAt_open. eassumption.
    + destruct (execParagraph s) as [[[i' m'] r']|] eqn:E'; [|discriminate].
      intros H. injection H as _ <- _. apply (IH _ _ _ eq_refl).
Qed.

Lemma extractLoop_layout (doc : JS.str) (fuel : nat) :
  forall s off idx cum0 pre,
    doc = pre ++ s -> length pre = off ->
    let ps := extractLoop fuel s off idx cum0 in
    StronglySorted liesBefore ps
    /\ Forall (fun p => off <= startOffset p
                        /\ startOffset p + 7 <= endOffset p
                        /\ endOffset p <= length doc
                        /\ html p
                           = JS.substring doc (startOffset p) (endOffset p)
                        /\ (exists o t, openP (html p) = Some (o, t))
                        /\ atCloseP (skipn (length (html p) - 4) (html p))
                           = true) ps.
Proof.
  induction fuel as [|fuel IH]; intros s off idx cum0 pre Hd Hoff; simpl;
    [split; constructor|].
  destruct (execParagraph s) as [[[i m0] rest]|] eqn:E; [|split; constructor].
  pose proof (execParagraph_open _ _ _ _ E) as Hopen.
  apply execParagraph_decomp in E.
  destruct E as (sk & -> & Hl & Hm & body & close & Eb & Hcl & Hc).
  destruct (IH rest (off + i + length m0) (S idx)
              (cum0 + countWords (JS.trim (JS.stripTags m0)))%Z
              (pre ++ sk ++ m0)) as [Hs Hf].
  { rewrite Hd, <- !app_assoc. reflexivity. }
  { rewrite !length_app. lia. }
  split.
  - constructor; [assumption|].
    eapply Forall_impl; [|exact Hf]. intros p (H1 & _). unfold liesBefore.
    simpl. lia.
  - constructor.
    + simpl. repeat split; try lia.
      * rewrite Hd, !length_app. lia.
      * unfold JS.substring. rewrite Hd, app_assoc.
        rewrite skipn_app_le by (rewrite length_app; lia).
        replace (off + i - length (pre ++ sk)) with 0
          by (rewrite length_app; lia).
        rewrite skipn_O.
        replace (off + i + length m0 - (off + i)) with (length m0) by lia.
        rewrite firstn_app, Nat.sub_diag, firstn_O, app_nil_r, firstn_all.
        reflexivity.
      * assumption.
      * rewrite Eb, length_app, Hcl.
        replace (length body + 4 - 4) with (length body) by lia.
        rewrite skipn_app_le, Nat.sub_diag, skipn_O by lia. assumption.
    + eapply Forall_impl; [|exact Hf]. intros p (H1 & H2). split; [lia|].
      assumption.
Qed.

(** X7. The paragraphs lie in the document in the order of the list
    and do not overlap; each spans at least 7 characters inside the
    document, its markup is the document's text over that span, and
    the markup starts with [<p] and ends with [</p>]. *)
Theorem extractParagraphs_layout (doc : JS.str) :
  StronglySorted liesBefore (extractParagraphs doc)
  /\ Forall (fun p => startOffset p + 7 <= endOffset p
                      /\ endOffset p <= length doc
                      /\ html p = JS.substring doc (startOffset p) (endOffset p)
                      /\ (exists o t, openP (html p) = Some (o, t))
                      /\ atCloseP (skipn (length (html p) - 4) (html p)) = true)
       (extractParagraphs doc).
Proof.
  destruct (extractLoop_layout doc (length doc) doc 0 0 0%Z [] eq_refl eq_refl)
    as [Hs Hf].
  split; [assumption|]. eapply Forall_impl; [|exact Hf].
  intros p (_ & H). exact H.
Qed.

Lemma extractLoop_count (fuel : nat) :
  forall s off idx cum0,
    7 * length (extractLoop fuel s off idx cum0) <= length s.
Proof.
  induction fuel as [|fuel IH]; intros s off idx cum0; simpl; [lia|].
  destruct (execParagraph s) as [[[i m0] rest]|] eqn:E; [|simpl; lia].
  apply execParagraph_decomp in E. destruct E as (sk & -> & Hl & Hm & _).
  simpl. rewrite !length_app.
  specialize (IH rest (off + i + length m0) (S idx)
                (cum0 + countWords (JS.trim (JS.stripTags m0)))%Z). lia.
Qed.

(** X8. A document of [n] characters has at most [n / 7] paragraphs;
    in particular a document shorter than [<p></p>] has none. *)
Theorem extractParagraphs_count (doc : JS.str) :
  7 * length (extractParagraphs doc) <= length doc.
Proof. apply extractLoop_count. Qed.

(** *** The text of a paragraph *)

Lemma dropSpaces_suffix (s : JS.str) :
  exists sp, s = sp ++ JS.dropSpaces s.
Proof.
  induction s as [|c s [sp IH]]; simpl; [exists []; reflexivity|].
  destruct (JS.isSpace c).
  - exists (c :: sp). simpl. f_equal. assumption.
  - exists []. reflexivity.
Qed.

Lemma dropSpaces_head (s : JS.str) :
  match JS.dropSpaces s with
  | c :: _ => JS.isSpace c = false
  | [] => True
  end.
Proof.
  induction s as [|c s IH]; simpl; [exact I|].
  destruct (JS.isSpace c) eqn:E; [assumption | assumption].
Qed.

Lemma dropSpaces_fixed (s : JS.str) :
  match s with c :: _ => JS.isSpace c = false | [] => True end ->
  JS.dropSpaces s = s.
Proof. destruct s as [|c s]; simpl; [reflexivity|]. intros ->. reflexivity. Qed.

Lemma trim_infix (s : JS.str) : exists a b, s = a ++ JS.trim s ++ b.
Proof.
  unfold JS.trim. destruct (dropSpaces_suffix s) as [a Ha].
  destruct (dropSpaces_suffix (rev (JS.dropSpaces s))) as [b Hb].
  exists a, (rev b). rewrite <- rev_app_distr, <- Hb, rev_involutive.
  assumption.
Qed.

Lemma trim_head (s : JS.str) :
  match JS.trim s with c :: _ => JS.isSpace c = false | [] => True end.
Proof.
  unfold JS.trim. pose proof (dropSpaces_head s) as Hu.
  destruct (dropSpaces_suffix (rev (JS.dropSpaces s))) as [b Hb].
  apply (f_equal (@rev ascii)) in Hb. rewrite rev_involutive, rev_app_distr in Hb.
  destruct (rev (JS.dropSpaces (rev (JS.dropSpaces s)))) as [|c t]; [exact I|].
  rewrite Hb in Hu. exact Hu.
Qed.

Lemma trim_trim (s : JS.str) : JS.trim (JS.trim s) = JS.trim s.
Proof.
  pose proof (trim_head s) as Hh. unfold JS.trim at 1.
  rewrite (dropSpaces_fixed _ Hh). unfold JS.trim. rewrite rev_involutive.
  rewrite (dropSpaces_fixed _ (dropSpaces_head _)). reflexivity.
Qed.

Lemma stripTagsFrom_In (s : JS.str) :
  forall b c, In c (JS.stripTagsFrom b s) -> In c s.
Proof.
  induction s as [|a s IH]; intros b c; simpl; [auto|].
  destruct b.
  - intros H. right. eapply IH. eassumption.
  - destruct (Ascii.eqb a "<"%char && existsb (Ascii.eqb ">"%char) s).
    + intros H. right. eapply IH. eassumption.
    + intros [H|H]; [auto|]. right. eapply IH. eassumption.
Qed.

Lemma existsb_gt_false (s : JS.str) :
  existsb (Ascii.eqb ">"%char) s = false <-> ~ In ">"%char s.
Proof.
  split.
  - intros H Hin. assert (existsb (Ascii.eqb ">"%char) s = true); [|congruence].
    apply existsb_exists. exists ">"%char. split; [assumption | reflexivity].
  - intros H. destruct (existsb _ s) eqn:E; [|reflexivity].
    apply existsb_exists in E. destruct E as [c [Hc Ec]].
    apply Ascii.eqb_eq in Ec. subst. contradiction.
Qed.

Lemma stripTagsFrom_tagless (s : JS.str) :
  forall b, tagless (JS.stripTagsFrom b s).
Proof.
  induction s as [|a s IH]; intros b x y; simpl.
  - destruct x; discriminate.
  - destruct b; [apply IH|].
    destruct (Ascii.eqb a "<"%char && existsb (Ascii.eqb ">"%char) s) eqn:E;
      [apply IH|].
    destruct x as [|c x]; simpl; intros H; injection H as -> H.
    + simpl in E. subst y. rewrite existsb_gt_false in *.
      intros Hin. apply E. eapply stripTagsFrom_In. eassumption.
    + eapply IH. eassumption.
Qed.

Lemma tagless_infix (a s b : JS.str) : tagless (a ++ s ++ b) -> tagless s.
Proof.
  intros H x y E. specialize (H (a ++ x) (y ++ b)).
  rewrite E, <- !app_assoc in H. specialize (H eq_refl).
  rewrite existsb_app in H. apply orb_false_iff in H. tauto.
Qed.

Lemma tagless_stripTags (s : JS.str) : tagless s -> JS.stripTags s = s.
Proof.
  unfold JS.stripTags. induction s as [|c s IH]; intros H; simpl; [reflexivity|].
  destruct (Ascii.eqb c "<"%char) eqn:E; simpl.
  - apply Ascii.eqb_eq in E. subst c. rewrite (H [] s eq_refl).
    f_equal. apply IH. intros x y Hy. apply (H ("<"%char :: x)). simpl.
    f_equal. assumption.
  - f_equal. apply IH. intros x y Hy. apply (H (c :: x)). simpl.
    f_equal. assumption.
Qed.

(** X9. The text of a paragraph is trimmed and holds no tag any more:
    trimming it or stripping tags from it again changes nothing. *)
Theorem paragraph_text_clean (doc : JS.str) (p : ParagraphInfo) :
  In p (extractParagraphs doc) ->
  JS.trim (text p) = text p /\ JS.stripTags (text p) = text p.
Proof.
  intros Hp.
  destruct (extractLoop_bookkeeping (length doc) doc 0 0 0) as (_ & _ & Hf).
  fold (extractParagraphs doc) in Hf.
  rewrite Forall_forall in Hf. destruct (Hf p Hp) as (-> & _).
  split; [apply trim_trim|]. apply tagless_stripTags.
  destruct (trim_infix (JS.stripTags (html p))) as (a & b & E).
  apply (tagless_infix a _ b). rewrite <- E.
  apply stripTagsFrom_tagless.
Qed.

Lemma paragraph_text_clean_witness :
  JS.trim (text sourdoughParagraph) = text sourdoughParagraph
  /\ JS.stripTags (text sourdoughParagraph) = text sourdoughParagraph.
Proof.
  apply (paragraph_text_clean sourdoughHtml sourdoughParagraph).
  vm_compute. right. left. reflexivity.
Defined.

(** ** The stemmer *)

Lemma lettersOf_letters (w : JS.str) : forallb JS.isLowerAZ (lettersOf w) = true.
Proof.
  unfold lettersOf. apply forallb_forall. intros c H.
  apply filter_In in H. tauto.
Qed.

Lemma lettersOf_length (w : JS.str) : length (lettersOf w) <= length w.
Proof.
  unfold lettersOf, JS.toLowerCase.
  etransitivity; [apply filter_length_le|]. rewrite length_map. lia.
Qed.

Lemma dropLast_letters (n : nat) (w : JS.str) :
  forallb JS.isLowerAZ w = true -> forallb JS.isLowerAZ (JS.dropLast n w) = true.
Proof.
  unfold JS.dropLast. intros H. rewrite forallb_forall in *. intros c Hc.
  apply H. rewrite <- (firstn_skipn (length w - n) w). apply in_or_app. auto.
Qed.

Lemma dropLast_length (n : nat) (w : JS.str) :
  length (JS.dropLast n w) = length w - n.
Proof. unfold JS.dropLast. rewrite length_firstn. lia. Qed.

(** X10. A stem is made of the letters [a]-[z] only and is no longer
    than the word; a word of at most three letters is its own stem (its
    letters, lower-cased), and a longer one keeps at least three. *)
Theorem stem_shape (word : JS.str) :
  forallb JS.isLowerAZ (stem word) = true
  /\ length (stem word) <= length word
  /\ (length (lettersOf word) <= 3 -> stem word = lettersOf word)
  /\ (3 < length (lettersOf word) -> 3 <= length (stem word)).
Proof.
  pose proof (lettersOf_letters word) as Hl.
  pose proof (lettersOf_length word) as Hn.
  unfold stem. set (w := lettersOf word) in *.
  destruct (length w <=? 3) eqn:E3.
  - apply Nat.leb_le in E3.
    split; [assumption|]. split; [assumption|]. split; [reflexivity | lia].
  - apply Nat.leb_gt in E3.
    assert (forall k, 3 + k <= length w ->
              forallb JS.isLowerAZ (JS.dropLast k w) = true
              /\ length (JS.dropLast k w) <= length word
              /\ (length w <= 3 -> JS.dropLast k w = w)
              /\ (3 < length w -> 3 <= length (JS.dropLast k w))) as Hd.
    { intros k Hk. rewrite dropLast_length.
      split; [apply dropLast_letters; assumption|].
      split; [lia|]. split; lia. }
    repeat match goal with
           | |- context [if ?b && (?n <? length w) then _ else _] =>
               let C := fresh "C" in
               destruct (b && (n <? length w)) eqn:C;
               [apply andb_true_iff in C; destruct C as [_ C];
                apply Nat.ltb_lt in C|]
           end;
      try (apply Hd; lia).
    + rewrite forallb_app, length_app, dropLast_length.
      rewrite dropLast_letters by assumption.
      split; [reflexivity|]. split; [simpl; lia|]. split; [lia | simpl; lia].
    + split; [assumption|]. split; [lia|]. split; [reflexivity | lia].
Qed.

(** ** Letter case *)
















Lemma windowLoop_ends (words titleStems allTargetStems : list JS.str) :
  anchorsAre
    (fun a =>
       exists i len,
         3 <= len <= 7 /\ i + len <= length words
         /\ a = JS.joinSp (JS.slice words i (i + len))
         /\ JS.has STOP (lettersOf (nth i words [])) = false
         /\ JS.has STOP (lettersOf (nth (i + len - 1) words [])) = false)
    (windowLoop words titleStems allTargetStems).
Proof.
  unfold windowLoop.
  apply fold_left_invariant; [|intros a sc E; discriminate].
  intros best len Hlen Hbest. apply in_seq in Hlen.
  apply fold_left_invariant; [|assumption].
  intros best' i Hi Hbest'. apply in_seq in Hi. unfold windowStep.
  destruct (length _ <? 8); [assumption|].
  destruct (length _ =? 0); [assumption|].
  destruct (JS.has STOP (lettersOf (nth i words []))
            || JS.has STOP (lettersOf (nth (i + len - 1) words []))) eqn:E;
    [assumption|].
  apply orb_false_iff in E.
  destruct (_ =? 0); [assumption|].
  destruct (better best' _); [|assumption].
  intros a sc H. injection H as <- _. exists i, len.
  split; [lia|]. split; [lia|]. tauto.
Qed.

(** X12. An anchor that [findBestAnchor] returns is either a window of
    3 to 7 consecutive words of the paragraph whose first and last
    words, reduced to their letters, are no stop words, or a fallback
    anchor (a stretch of the paragraph text cut at the offset where a
    run of title words occurs in the lower-cased text). *)
Theorem findBestAnchor_stop_words (paraText : JS.str) (pg : SitePage)
  (a : JS.str) (sc : float) :
  findBestAnchor paraText pg = Some (a, sc) ->
  (exists i len,
      3 <= len <= 7 /\ i + len <= length (JS.splitWs paraText)
      /\ a = JS.joinSp (JS.slice (JS.splitWs paraText) i (i + len))
      /\ JS.has STOP (lettersOf (nth i (JS.splitWs paraText) [])) = false
      /\ JS.has STOP (lettersOf (nth (i + len - 1) (JS.splitWs paraText) []))
         = false)
  \/ FallbackAnchor paraText (title pg) a.
Proof.
  unfold findBestAnchor.
  destruct (length _ =? 0); [discriminate|].
  destruct (length (JS.splitWs paraText) <? 5); [discriminate|].
  set (w := windowLoop _ _ _).
  pose proof (windowLoop_ends (JS.splitWs paraText)
                (significantTokens (title pg))
                (significantTokens (title pg)
                 ++ flat_map significantTokens
                      match keywords pg with Some ks => ks | None => [] end))
    as Hw.
  fold w in Hw.
  match type of Hw with
  | anchorsAre ?P w =>
      assert (anchorsAre (fun a => P a \/ FallbackAnchor paraText (title pg) a)
                (if needsFallback w then fallbackLoop paraText (title pg) w
                 else w)) as Hb
  end.
  { destruct (needsFallback w); [apply fallbackLoop_shape; assumption|].
    intros x y E. left. eauto. }
  destruct (if needsFallback w then _ else w) as [[x y]|]; [|discriminate].
  destruct (PrimFloat.leb 10 y); [|discriminate].
  intros E. injection E as <- <-. exact (Hb _ _ eq_refl).
Qed.

Lemma findBestAnchor_stop_words_witness :
  (exists i len,
      3 <= len <= 7 /\ i + len <= length (JS.splitWs sourdoughText)
      /\ link_anchor sourdoughLink
         = JS.joinSp (JS.slice (JS.splitWs sourdoughText) i (i + len))
      /\ JS.has STOP (lettersOf (nth i (JS.splitWs sourdoughText) [])) = false
      /\ JS.has STOP
           (lettersOf (nth (i + len - 1) (JS.splitWs sourdoughText) []))
         = false)
  \/ FallbackAnchor sourdoughText "Sourdough Baking Guide"
       (link_anchor sourdoughLink).
Proof.
  apply (findBestAnchor_stop_words sourdoughText
           (mkPage "/guides/sourdough" "Sourdough Baking Guide")
           (link_anchor sourdoughLink) (link_priority sourdoughLink)).
  vm_compute. reflexivity.
Defined.

(** ** More on [injectContextualLinks] *)

Lemma embeds_refl (s : JS.str) : embeds s s.
Proof. induction s; constructor; assumption. Qed.

Lemma embeds_trans (r s t : JS.str) : embeds r s -> embeds s t -> embeds r t.
Proof.
  intros Hrs Hst. revert r Hrs.
  induction Hst as [|c s t Hst IH|c s t Hst IH]; intros r Hrs.
  - assumption.
  - inversion Hrs; subst; constructor; auto.
  - constructor. auto.
Qed.

Lemma embeds_insert (x s : JS.str) : embeds s (x ++ s).
Proof. induction x; simpl; [apply embeds_refl | constructor; assumption]. Qed.

Lemma embeds_app_l (a s t : JS.str) : embeds s t -> embeds (a ++ s) (a ++ t).
Proof. intros H. induction a; simpl; [|constructor]; assumption. Qed.

Lemma embeds_app_r (b s t : JS.str) : embeds s t -> embeds (s ++ b) (t ++ b).
Proof.
  intros H. induction H; simpl; [apply embeds_refl | constructor; assumption..].
Qed.

Lemma splice_embeds (m : AnchorMatch) (u result : JS.str) :
  result = m_pre m ++ fullParagraph m ++ m_post m ->
  embeds result (splice m u).
Proof.
  intros ->. rewrite splice_eq. unfold fullParagraph.
  rewrite <- !app_assoc. do 3 apply embeds_app_l.
  eapply embeds_trans; [|apply embeds_insert].
  apply embeds_app_l. apply embeds_insert.
Qed.

Lemma injectStep_embeds (result : JS.str) (link : InternalLink) :
  embeds result (injectStep result link).
Proof.
  rewrite injectStep_insertionOf.
  destruct (insertionOf result link) as [[m u]|] eqn:E; [|apply embeds_refl].
  apply insertionOf_spec in E. apply splice_embeds. tauto.
Qed.

(** X13. The injector only inserts: the document it returns is the
    document it was given with characters added, none removed, changed
    or moved. *)
Theorem inject_only_inserts (e : SOTAInternalLinkEngine) (doc : JS.str)
  (links : list InternalLink) :
  embeds doc (injectContextualLinks e doc links).
Proof.
  unfold injectContextualLinks. destruct (length links =? 0);
    [apply embeds_refl|].
  revert doc. induction links as [|l links IH]; intros doc; simpl;
    [apply embeds_refl|].
  eapply embeds_trans; [apply injectStep_embeds | apply IH].
Qed.

Lemma insertedLength_app (l1 l2 : list Insertion) :
  insertedLength (l1 ++ l2) = insertedLength l1 + insertedLength l2.
Proof. induction l1; simpl; lia. Qed.

Lemma traceStep_length (t : Trace) (link : InternalLink) :
  length (tr_doc (traceStep t link)) + insertedLength (tr_log t)
  = length (tr_doc t) + insertedLength (tr_log (traceStep t link))
  /\ length (tr_log (traceStep t link)) <= S (length (tr_log t)).
Proof.
  unfold traceStep.
  destruct (insertionOf (tr_doc t) link) as [[m u]|] eqn:E; [|split; lia].
  apply insertionOf_spec in E. destruct E as (E & _).
  cbn [tr_doc tr_log]. rewrite insertedLength_app, length_app.
  cbn [insertedLength ins_url length]. rewrite splice_eq.
  apply (f_equal (@length ascii)) in E. unfold fullParagraph in E.
  rewrite !length_app in *. split; lia.
Qed.

(** X14. Each link of the list leads to at most one insertion, and the
    returned document is longer than the given one by exactly the
    lengths of the opening and closing tags inserted. *)
Theorem inject_length (e : SOTAInternalLinkEngine) (doc : JS.str)
  (links : list InternalLink) :
  length (tr_log (injectTrace doc links)) <= length links
  /\ length (injectContextualLinks e doc links)
     = length doc + insertedLength (tr_log (injectTrace doc links)).
Proof.
  rewrite <- (injectTrace_doc e). unfold injectTrace.
  assert (forall ls t,
             length (tr_log (fold_left traceStep ls t))
             <= length ls + length (tr_log t)
             /\ length (tr_doc (fold_left traceStep ls t))
                + insertedLength (tr_log t)
                = length (tr_doc t)
                  + insertedLength (tr_log (fold_left traceStep ls t))) as H.
  { induction ls as [|l ls IH]; intros t; simpl; [split; lia|].
    destruct (IH (traceStep t l)) as [Ha Hb].
    destruct (traceStep_length t l) as [Hc Hd]. split; lia. }
  destruct (H links {| tr_doc := doc; tr_tags := []; tr_log := [] |})
    as [Ha Hb].
  cbn [tr_doc tr_log insertedLength length] in Ha, Hb. split; lia.
Qed.

Lemma startsWith_app (p y : JS.str) : JS.startsWith p (p ++ y) = true.
Proof.
  induction p as [|c p IH]; simpl; [reflexivity|].
  rewrite IH, (proj2 (Ascii.eqb_eq c c) eq_refl). reflexivity.
Qed.

Lemma indexOf_eq (p s : JS.str) :
  JS.indexOf p s
  = if JS.startsWith p s then Some 0
    else match s with
         | [] => None
         | _ :: t => option_map S (JS.indexOf p t)
         end.
Proof. destruct s; reflexivity. Qed.

Lemma indexOf_complete (p x y : JS.str) : JS.indexOf p (x ++ p ++ y) <> None.
Proof.
  induction x as [|c x IH]; rewrite indexOf_eq.
  - simpl. rewrite startsWith_app. discriminate.
  - destruct (JS.startsWith p _); [discriminate|]. simpl.
    destruct (JS.indexOf p (x ++ p ++ y)); [discriminate | contradiction].
Qed.

Lemma execAnchor_occurs (anchor doc : JS.str) (m : AnchorMatch) :
  execAnchor anchor doc = Some m ->
  JS.indexOf (JS.toLowerCase anchor) (JS.toLowerCase doc) <> None.
Proof.
  intros E. pose proof (execAnchor_matched _ _ _ E) as Hm.
  apply execAnchor_decomp in E. destruct E as (E & _).
  assert (JS.toLowerCase doc
          = JS.toLowerCase (m_pre m ++ m_open m ++ m_before m)
            ++ JS.toLowerCase anchor
            ++ JS.toLowerCase (m_after m ++ m_post m)) as ->.
  { rewrite <- Hm, E. unfold fullParagraph, JS.toLowerCase.
    rewrite !map_app, <- !app_assoc. reflexivity. }
  apply indexOf_complete.
Qed.

(** X15. Links whose anchor has fewer than 4 characters, whose URL is
    empty, or whose anchor does not occur in the document (letter case
    aside) are passed over silently: with only such links the document
    comes back unchanged. *)
Theorem inject_skips (e : SOTAInternalLinkEngine) (doc : JS.str)
  (links : list InternalLink) :
  Forall (skipped doc) links ->
  injectContextualLinks e doc links = doc.
Proof.
  intros H. unfold injectContextualLinks.
  destruct (length links =? 0); [reflexivity|].
  induction H as [|l links Hl _ IH]; simpl; [reflexivity|].
  assert (injectStep doc l = doc) as ->; [|assumption].
  unfold injectStep. destruct Hl as [Hl|[Hl|Hl]].
  - apply Nat.ltb_lt in Hl. rewrite Hl, !orb_true_r. reflexivity.
  - rewrite Hl. simpl. rewrite orb_true_r. reflexivity.
  - destruct (_ || _); [reflexivity|].
    destruct (execAnchor (linkAnchor l) doc) as [m|] eqn:E; [|reflexivity].
    apply execAnchor_occurs in E. contradiction.
Qed.

Lemma inject_skips_witness :
  injectContextualLinks sourdoughEngine plainHtml
    [mkLink "see" "/short"; mkLink "alpha" EmptyString; mkLink "gamma delta" "/absent"]
  = plainHtml.
Proof.
  apply (inject_skips sourdoughEngine plainHtml
           [mkLink "see" "/short"; mkLink "alpha" EmptyString;
            mkLink "gamma delta" "/absent"]).
  apply Forall_cons; [|apply Forall_cons; [|apply Forall_cons; [|apply Forall_nil]]].
  - left. vm_compute. repeat constructor.
  - right. left. reflexivity.
  - right. right. vm_compute. reflexivity.
Defined.

Lemma injectStep_wraps_first_block_witness :
  plainHtml
  = (m_pre secondMatch ++ m_open secondMatch ++ m_before secondMatch)
    ++ m_matched secondMatch ++ m_after secondMatch ++ m_post secondMatch
  /\ injectStep plainHtml (mkLink "BETA again" "/w")
     = (m_pre secondMatch ++ m_open secondMatch ++ m_before secondMatch)
       ++ openTag (linkUrl (mkLink "BETA again" "/w"))
       ++ m_matched secondMatch ++ closeTag
       ++ m_after secondMatch ++ m_post secondMatch
  /\ JS.toLowerCase (m_matched secondMatch)
     = JS.toLowerCase (linkAnchor (mkLink "BETA again" "/w")).
Proof.
  apply (injectStep_wraps_first_block plainHtml (mkLink "BETA again" "/w")
           secondMatch).
  - vm_compute. repeat constructor.
  - vm_compute. repeat constructor.
  - vm_compute. reflexivity.
  - vm_compute. reflexivity.
Defined.

(** ** Counting the links of a document *)

Lemma looksInternal_http (href : JS.str) :
  looksInternal href = negb (JS.startsWith "http" href).
Proof.
  unfold looksInternal. destruct href as [|c h]; [reflexivity|].
  cbn [JS.startsWith list_ascii_of_string].
  destruct (Ascii.eqb "/" c) eqn:E1.
  - apply Ascii.eqb_eq in E1. subst c. reflexivity.
  - destruct (Ascii.eqb "#" c) eqn:E2; [|reflexivity].
    apply Ascii.eqb_eq in E2. subst c. reflexivity.
Qed.

(** X16. The tests for a leading [/] and a leading [#] change nothing:
    a link tag is counted exactly when the value of its first [href]
    does not start with the lower-case letters [http]. *)
Theorem countExistingLinks_counts_non_http (e : SOTAInternalLinkEngine)
  (html : JS.str) :
  countExistingLinks e html
  = length (filter (fun m => negb (JS.startsWith "http" (firstHref m)))
              (linkTags html)).
Proof.
  unfold countExistingLinks, countExistingInternalLinks. f_equal.
  apply filter_ext. intros m. apply looksInternal_http.
Qed.

Lemma matchLinkAt_tag (s m rest : JS.str) :
  matchLinkAt s = Some (m, rest) -> JS.testAnchorTag s = true.
Proof.
  destruct s as [|c1 [|c2 [|c3 t]]]; simpl; try discriminate.
  destruct (Ascii.eqb c1 "<"%char && Ascii.eqb (JS.lowerChar c2) "a"%char
            && JS.isSpace c3); [reflexivity | discriminate].
Qed.

Lemma execLink_tag (s : JS.str) :
  forall m rest, execLink s = Some (m, rest) -> JS.testAnchorTag s = true.
Proof.
  induction s as [|c s IH]; intros m rest; cbn [execLink].
  - simpl. discriminate.
  - destruct (matchLinkAt (c :: s)) as [[m' r']|] eqn:E.
    + intros _. eapply matchLinkAt_tag. eassumption.
    + intros H. apply testAnchorTag_cons. eapply IH. eassumption.
Qed.

(** X17. A document in which no [<a] is followed by white space has no
    link tags, and its count of existing links is 0. *)
Theorem countExistingLinks_none (e : SOTAInternalLinkEngine) (html : JS.str) :
  JS.testAnchorTag html = false ->
  linkTags html = [] /\ countExistingLinks e html = 0.
Proof.
  intros H.
  assert (linkTags html = []) as E.
  { unfold linkTags. destruct (length html); [reflexivity|]. simpl.
    destruct (execLink html) as [[m r]|] eqn:El; [|reflexivity].
    apply execLink_tag in El. congruence. }
  split; [assumption|].
  unfold countExistingLinks, countExistingInternalLinks. rewrite E. reflexivity.
Qed.

Lemma countExistingLinks_none_witness :
  linkTags bareAnchorHtml = [] /\ countExistingLinks sourdoughEngine bareAnchorHtml = 0.
Proof.
  apply (countExistingLinks_none sourdoughEngine bareAnchorHtml).
  vm_compute. reflexivity.
Defined.

Example countExistingLinks_mixed :
  countExistingLinks sourdoughEngine
    "<p><a href='/a'>a</a> <A class=x HREF = 'http://e.com'>b</a> <a name='n'>c</a> <a href='#top' data-x='a>b'>d</a> <a title='href=1' href='mailto:x'>e</a></p>"
  = 3.
Proof. vm_compute. reflexivity. Qed.

(** ** The greedy selection is complete *)

Lemma selectLoop_grows (limit : float) (cs : list ScoredCandidate) :
  forall st s,
    In s (selected st) -> In s (selected (selectLoop limit cs st)).
Proof.
  induction cs as [|x cs IH]; intros st s H; simpl; [assumption|].
  destruct (PrimFloat.leb limit (JS.num (length (selected st)))); [assumption|].
  destruct (JS.has _ _); [auto|].
  destruct (existsb _ _); [auto|].
  destruct (tooClose st x); [auto|].
  apply IH. simpl. apply in_or_app. auto.
Qed.

Lemma selectLoop_complete (limit : float) (cs : list ScoredCandidate) :
  forall st,
    SelInv st -> Forall (fun c => (0 < paraCumWords c)%Z) cs ->
    PrimFloat.leb limit
      (JS.num (length (selected (selectLoop limit cs st)))) = false ->
    forall c,
      In c cs ->
      In c (selected (selectLoop limit cs st))
      \/ exists s, In s (selected (selectLoop limit cs st)) /\ clashes s c.
Proof.
  induction cs as [|x cs IH]; intros st Hst Hcs Hlim c Hc; [contradiction|].
  inversion Hcs as [|? ? Hx Hcs']; subst. cbn [selectLoop] in *.
  destruct (PrimFloat.leb limit (JS.num (length (selected st)))) eqn:E0;
    [congruence|].
  destruct (JS.has (usedUrls st) (url (page x))) eqn:E1.
  { destruct Hc as [<-|Hc]; [|apply IH; assumption].
    right. apply has_In in E1. rewrite (inv_urls _ Hst) in E1.
    apply in_map_iff in E1. destruct E1 as [s [Es Hs]].
    exists s. split; [apply selectLoop_grows; assumption | left; assumption]. }
  destruct (existsb (Nat.eqb (index (paragraph x))) (usedParas st)) eqn:E2.
  { destruct Hc as [<-|Hc]; [|apply IH; assumption].
    right. apply existsb_exists in E2. destruct E2 as [n [Hn En]].
    apply Nat.eqb_eq in En. subst n. rewrite (inv_paras _ Hst) in Hn.
    apply in_map_iff in Hn. destruct Hn as [s [Es Hs]].
    exists s. split; [apply selectLoop_grows; assumption|].
    right. left. assumption. }
  destruct (tooClose st x) eqn:E3.
  { destruct Hc as [<-|Hc]; [|apply IH; assumption].
    right. unfold tooClose in E3. apply andb_true_iff in E3.
    destruct E3 as [Hpos Hnear]. apply Z.ltb_lt in Hpos, Hnear.
    rewrite (inv_last _ Hst) in Hpos, Hnear.
    assert (map paraCumWords (selected st) <> []) as Hne.
    { intros E. rewrite E in Hpos. simpl in Hpos. lia. }
    pose proof (last_In_nonempty _ 0%Z Hne) as Hin.
    apply in_map_iff in Hin. destruct Hin as [s [Es Hs]].
    exists s. split; [apply selectLoop_grows; assumption|].
    right. right. rewrite Es. exact Hnear. }
  destruct Hc as [<-|Hc].
  - left. apply selectLoop_grows. simpl. apply in_or_app. right. left.
    reflexivity.
  - apply IH; try assumption. apply SelInv_accept; assumption.
Qed.

(** X22. The greedy selection leaves no candidate out without cause:
    when the returned list stays below the limit, every candidate is
    either returned or clashes with a returned one, by sharing its
    target URL or its paragraph, or by a cumulative word count that is
    less than 250 above the returned one's. *)
Theorem generate_selection_complete (e : SOTAInternalLinkEngine)
  (html : JS.str) (maxLinks : option float) (c : ScoredCandidate) :
  In c (collectCandidates (pages e) (extractParagraphs html)) ->
  PrimFloat.leb (limitOf maxLinks)
    (JS.num (length (selectCandidates e html maxLinks))) = false ->
  In c (selectCandidates e html maxLinks)
  \/ exists s, In s (selectCandidates e html maxLinks) /\ clashes s c.
Proof.
  unfold selectCandidates, limitOf. intros Hc Hlim.
  destruct (length (pages e) =? 0) eqn:E.
  - apply Nat.eqb_eq in E. destruct (pages e); [|discriminate].
    unfold collectCandidates in Hc. apply in_flat_map in Hc.
    destruct Hc as [p [_ Hp]]. unfold candidatesOf in Hp.
    destruct (_ || _); contradiction.
  - apply selectLoop_complete; try assumption.
    + apply SelInv_empty.
    + apply Forall_forall. intros x Hx.
      apply (proj1 (sortByScore_In _ _)) in Hx.
      eapply candidate_cum_pos. eassumption.
    + apply sortByScore_In. assumption.
Qed.

Lemma generate_selection_complete_witness :
  In artCandidate (selectCandidates twoEngine closeHtml None)
  \/ exists s,
       In s (selectCandidates twoEngine closeHtml None)
       /\ clashes s artCandidate.
Proof.
  apply (generate_selection_complete twoEngine closeHtml None artCandidate).
  - vm_compute. left. reflexivity.
  - vm_compute. reflexivity.
Defined.

Example close_paragraphs :
  map (fun c => string_of_list_ascii (anchor c))
    (collectCandidates (pages twoEngine) (extractParagraphs closeHtml))
  = ["the art"; "guide to sourdough baking"]%string
  /\ map (fun c => string_of_list_ascii (anchor c))
       (selectCandidates twoEngine closeHtml None)
     = ["guide to sourdough baking"]%string.
Proof. split; vm_compute; reflexivity. Qed.

(** ** The link tags of a document *)

Lemma splitQuote_decomp (s : JS.str) :
  forall v r, splitQuote s = Some (v, r) -> exists q, s = v ++ q :: r.
Proof.
  induction s as [|c s IH]; intros v r; simpl; [discriminate|].
  destruct (isQuote c).
  - intros H. injection H as <- <-. exists c. reflexivity.
  - destruct (splitQuote s) as [[v' r']|]; [|discriminate].
    intros H. injection H as <- <-. destruct (IH _ _ eq_refl) as [q ->].
    exists q. reflexivity.
Qed.

Lemma hrefValue_decomp (s v r : JS.str) :
  hrefValue s = Some (v, r) -> exists x, s = x ++ r.
Proof.
  unfold hrefValue. destruct (dropSpaces_suffix s) as [sp Hs].
  destruct (JS.dropSpaces s) as [|c t]; [discriminate|].
  destruct (Ascii.eqb c "="%char); [|discriminate].
  destruct (dropSpaces_suffix t) as [sp2 Ht].
  destruct (JS.dropSpaces t) as [|q t']; [discriminate|].
  destruct (isQuote q); [|discriminate].
  intros H. apply splitQuote_decomp in H. destruct H as [q' ->].
  exists (sp ++ c :: sp2 ++ q :: v ++ [q']).
  rewrite Hs, Ht. rewrite <- !app_assoc. simpl. rewrite <- !app_assoc.
  simpl. rewrite <- !app_assoc. reflexivity.
Qed.

Lemma hrefToEnd_decomp (s after : JS.str) :
  hrefToEnd s = Some after -> exists x, s = x ++ ">"%char :: after.
Proof.
  unfold hrefToEnd, hrefHere.
  destruct (startsWithI "href" s); [|discriminate].
  destruct (hrefValue (skipn 4 s)) as [[v r]|] eqn:E; [|discriminate].
  apply hrefValue_decomp in E. destruct E as [x E].
  destruct (splitGt r) as [[a y]|] eqn:G; [|discriminate].
  apply splitGt_decomp in G. subst r.
  intros H. injection H as <-.
  exists (firstn 4 s ++ x ++ a).
  rewrite <- (firstn_skipn 4 s) at 1. rewrite E, <- !app_assoc. reflexivity.
Qed.

Lemma lastHref_decomp (s : JS.str) :
  forall after, lastHref s = Some after -> exists x, s = x ++ ">"%char :: after.
Proof.
  induction s as [|c s IH]; intros after; cbn [lastHref]; [discriminate|].
  destruct (Ascii.eqb c ">"%char); [discriminate|].
  destruct (lastHref s) as [a|].
  - intros H. injection H as <-. destruct (IH _ eq_refl) as [x ->].
    exists (c :: x). reflexivity.
  - apply hrefToEnd_decomp.
Qed.

Lemma firstn_prefix {A} (l1 l2 : list A) : firstn (length l1) (l1 ++ l2) = l1.
Proof. induction l1; simpl; [reflexivity | f_equal; assumption]. Qed.

Lemma matchLinkAt_decomp (s m rest : JS.str) :
  matchLinkAt s = Some (m, rest) ->
  s = m ++ rest
  /\ JS.testAnchorTag m = true
  /\ exists body, m = body ++ [">"%char].
Proof.
  destruct s as [|c1 [|c2 [|c3 t]]]; cbn [matchLinkAt]; try discriminate.
  destruct (Ascii.eqb c1 "<"%char && Ascii.eqb (JS.lowerChar c2) "a"%char
            && JS.isSpace c3) eqn:T; [|discriminate].
  destruct (lastHref t) as [after|] eqn:E; [|discriminate].
  apply lastHref_decomp in E. destruct E as [x ->].
  intros H.
  assert (m = firstn (length (c1 :: c2 :: c3 :: x ++ ">"%char :: after)
                      - length after)
                (c1 :: c2 :: c3 :: x ++ ">"%char :: after)
          /\ rest = after) as [-> ->] by (split; congruence).
  clear H.
  assert (c1 :: c2 :: c3 :: x ++ ">"%char :: after
          = (c1 :: c2 :: c3 :: x ++ [">"%char]) ++ after) as E
    by (simpl; rewrite <- app_assoc; reflexivity).
  rewrite E.
  replace (length ((c1 :: c2 :: c3 :: x ++ [">"%char]) ++ after) - length after)
    with (length (c1 :: c2 :: c3 :: x ++ [">"%char]))
    by (rewrite length_app; lia).
  rewrite (firstn_prefix (c1 :: c2 :: c3 :: x ++ [">"%char]) after).
  split; [reflexivity|]. split.
  - cbn [JS.testAnchorTag]. destruct (x ++ [">"%char]); simpl; rewrite T;
      reflexivity.
  - exists (c1 :: c2 :: c3 :: x). reflexivity.
Qed.

Lemma execLink_decomp (s : JS.str) :
  forall m rest,
    execLink s = Some (m, rest) ->
    (exists before, s = before ++ m ++ rest)
    /\ JS.testAnchorTag m = true
    /\ exists body, m = body ++ [">"%char].
Proof.
  induction s as [|c s IH]; intros m rest; cbn [execLink].
  - simpl. discriminate.
  - destruct (matchLinkAt (c :: s)) as [[m' r']|] eqn:E.
    + intros H. injection H as <- <-. apply matchLinkAt_decomp in E.
      destruct E as (E & Ht & Hb). split; [|split; assumption].
      exists []. assumption.
    + intros H. destruct (IH _ _ H) as ([before ->] & Ht & Hb).
      split; [|split; assumption]. exists (c :: before). reflexivity.
Qed.

Lemma linkTagsLoop_fuel (f1 : nat) :
  forall f2 s,
    length s <= f1 -> length s <= f2 ->
    linkTagsLoop f1 s = linkTagsLoop f2 s.
Proof.
  induction f1 as [|f1 IH]; intros f2 s H1 H2.
  - destruct s; [|simpl in H1; lia]. destruct f2; reflexivity.
  - destruct f2 as [|f2].
    + destruct s; [|simpl in H2; lia]. reflexivity.
    + cbn [linkTagsLoop].
      destruct (execLink s) as [[m rest]|] eqn:E; [|reflexivity].
      apply execLink_decomp in E.
      destruct E as ([before ->] & _ & [body ->]).
      rewrite !length_app in H1, H2. simpl in H1, H2.
      f_equal. apply IH; lia.
Qed.

Lemma embeds_empty (s : JS.str) : embeds [] s.
Proof. induction s; constructor; assumption. Qed.

Lemma linkTagsLoop_pieces (fuel : nat) :
  forall s,
    Forall (fun m => (exists x y, s = x ++ m ++ y)
                     /\ JS.testAnchorTag m = true
                     /\ exists body, m = body ++ [">"%char])
      (linkTagsLoop fuel s)
    /\ embeds (concat (linkTagsLoop fuel s)) s.
Proof.
  induction fuel as [|fuel IH]; intros s; cbn [linkTagsLoop].
  - split; [constructor | apply embeds_empty].
  - destruct (execLink s) as [[m rest]|] eqn:E;
      [|split; [constructor | apply embeds_empty]].
    apply execLink_decomp in E. destruct E as ([before ->] & Ht & Hb).
    destruct (IH rest) as (Hf & He). split.
    + constructor.
      * split; [exists before, rest; reflexivity | split; assumption].
      * eapply Forall_impl; [|exact Hf].
        intros m' ([x [y ->]] & Ht' & Hb'). split; [|split; assumption].
        exists (before ++ m ++ x), y. rewrite <- !app_assoc. reflexivity.
    + cbn [concat]. eapply embeds_trans; [|apply embeds_insert].
      apply embeds_app_l. assumption.
Qed.

(** X24. The link tags that [countExistingInternalLinks] finds are
    pieces of the document, one after the other: each is a stretch of
    the document that holds an [<a] followed by white space and ends
    in [>], and their concatenation is the document with the text
    between them left out.  The count is at most their number. *)
Theorem linkTags_pieces (e : SOTAInternalLinkEngine) (html : JS.str) :
  Forall (fun m => (exists x y, html = x ++ m ++ y)
                   /\ JS.testAnchorTag m = true
                   /\ exists body, m = body ++ [">"%char])
    (linkTags html)
  /\ embeds (concat (linkTags html)) html
  /\ countExistingLinks e html <= length (linkTags html).
Proof.
  destruct (linkTagsLoop_pieces (length html) html) as (Hf & He).
  split; [assumption|]. split; [assumption|].
  unfold countExistingLinks, countExistingInternalLinks. apply filter_length_le.
Qed.

(** ** Documents without a paragraph element *)

Lemma openP_lower (s o t : JS.str) :
  openP s = Some (o, t) -> exists y, JS.toLowerCase s = "<p" ++ y.
Proof.
  destruct s as [|c1 [|c2 s]]; simpl; try discriminate.
  destruct (Ascii.eqb c1 "<"%char) eqn:E1; [|discriminate].
  destruct (Ascii.eqb (JS.lowerChar c2) "p"%char) eqn:E2; [|discriminate].
  intros _. apply Ascii.eqb_eq in E1, E2. subst c1. rewrite E2.
  exists (JS.toLowerCase s). reflexivity.
Qed.

Lemma execParagraph_none (s : JS.str) :
  JS.indexOf "<p" (JS.toLowerCase s) = None -> execParagraph s = None.
Proof.
  intros H. destruct (execParagraph s) as [[[i m0] rest]|] eqn:E;
    [|reflexivity].
  destruct (execParagraph_open _ _ _ _ E) as (o & t & Ho).
  apply execParagraph_decomp in E. destruct E as (sk & -> & _).
  apply openP_lower in Ho. destruct Ho as [y Hy].
  exfalso. revert H. unfold JS.toLowerCase in *. rewrite !map_app, Hy.
  rewrite <- app_assoc. apply indexOf_complete.
Qed.

Lemma matchBlockAt_open (anchor s o b x a r : JS.str) :
  matchBlockAt anchor s = Some (o, b, x, a, r) ->
  exists y, JS.toLowerCase o = "<p" ++ y.
Proof.
  unfold matchBlockAt.
  destruct (openP s) as [[lt_p t]|] eqn:E; [|discriminate].
  destruct (splitGt t) as [[attrs body]|]; [|discriminate].
  destruct (scanAnchor anchor ">"%char body) as [[[[b' x'] a'] r']|];
    [|discriminate].
  intros H. injection H as <- _ _ _ _.
  destruct s as [|c1 [|c2 s]]; simpl in E; try discriminate.
  destruct (Ascii.eqb c1 "<"%char) eqn:E1; [|discriminate].
  destruct (Ascii.eqb (JS.lowerChar c2) "p"%char) eqn:E2; [|discriminate].
  simpl in E. injection E as <- _. apply Ascii.eqb_eq in E1, E2. subst c1.
  exists (JS.toLowerCase (attrs ++ [">"%char])). simpl. rewrite E2.
  reflexivity.
Qed.

Lemma execAnchor_none (anchor s : JS.str) :
  JS.indexOf "<p" (JS.toLowerCase s) = None -> execAnchor anchor s = None.
Proof.
  induction s as [|c s IH]; intros H; cbn [execAnchor].
  - reflexivity.
  - destruct (matchBlockAt anchor (c :: s)) as [[[[[o b] x] a] r]|] eqn:E.
    + exfalso. pose proof (matchBlockAt_open _ _ _ _ _ _ _ E) as [y Hy].
      apply matchBlockAt_decomp in E. destruct E as (E & _). revert H. rewrite E.
      unfold JS.toLowerCase in *. rewrite !map_app, Hy, <- app_assoc.
      apply (indexOf_complete "<p" []).
    + rewrite IH; [reflexivity|]. revert H.
      change (JS.toLowerCase (c :: s))
        with (JS.lowerChar c :: JS.toLowerCase s).
      rewrite indexOf_eq.
      destruct (JS.startsWith "<p" (JS.lowerChar c :: JS.toLowerCase s));
        [discriminate|].
      destruct (JS.indexOf "<p" (JS.toLowerCase s)); [discriminate|].
      reflexivity.
Qed.

(** X25. A document in which no [<p] occurs, in either letter case,
    has no paragraphs: no link is proposed for it, whatever the
    catalog, and the injector returns it unchanged, whatever the
    links. *)
Theorem document_without_paragraphs (e : SOTAInternalLinkEngine)
  (doc : JS.str) (maxLinks : option float) (links : list InternalLink) :
  JS.indexOf "<p" (JS.toLowerCase doc) = None ->
  extractParagraphs doc = []
  /\ generateLinkOpportunities e doc maxLinks = []
  /\ injectContextualLinks e doc links = doc.
Proof.
  intros H.
  assert (extractParagraphs doc = []) as Hp.
  { unfold extractParagraphs. destruct (length doc); [reflexivity|].
    cbn [extractLoop]. rewrite execParagraph_none by assumption. reflexivity. }
  split; [assumption|]. split.
  - unfold generateLinkOpportunities, selectCandidates. rewrite Hp.
    destruct (length (pages e) =? 0); reflexivity.
  - unfold injectContextualLinks. destruct (length links =? 0); [reflexivity|].
    induction links as [|l links IH]; [reflexivity|]. cbn [fold_left].
    replace (injectStep doc l) with doc; [assumption|].
    unfold injectStep. destruct (_ || _); [reflexivity|].
    rewrite execAnchor_none by assumption. reflexivity.
Qed.

Lemma document_without_paragraphs_witness :
  extractParagraphs divHtml = []
  /\ generateLinkOpportunities sourdoughEngine divHtml None = []
  /\ injectContextualLinks sourdoughEngine divHtml
       [mkLink "guide to sourdough baking" "/guides/sourdough"]
     = divHtml.
Proof.
  apply (document_without_paragraphs sourdoughEngine divHtml None
           [mkLink "guide to sourdough baking" "/guides/sourdough"]).
  vm_compute. reflexivity.
Defined.

(** ** The contextual engine: clusters, suggestions and scores *)

Module ContextualFacts.
Import Contextual.

Lemma fold_left_range {B} (f : Z -> B -> Z) (l : list B) (lo : Z) :
  (forall a x, (lo <= a)%Z -> (lo <= f a x)%Z) ->
  forall init, (lo <= init)%Z -> (lo <= fold_left f l init)%Z.
Proof.
  intros H. induction l as [|x l IH]; intros init Hi; simpl; auto.
Qed.

(** X18. The score of an anchor lies between 35 and 100. *)
Theorem calculateAnchorScore_range (anchor : JS.str) (page : SitePage)
  (pageKeywords : list JS.str) :
  (35 <= calculateAnchorScore anchor page pageKeywords <= 100)%Z.
Proof.
  unfold calculateAnchorScore.
  match goal with
  | |- context [fold_left ?g pageKeywords (fold_left ?f ?tw 50%Z)] =>
      assert (50 <= fold_left g pageKeywords (fold_left f tw 50%Z))%Z as H
  end.
  { apply fold_left_range.
    - intros a x Ha. destruct (includes _ _); lia.
    - apply fold_left_range; [|lia].
      intros a x Ha. destruct (existsb _ _); lia. }
  destruct (_ || _); destruct (length anchor <? 20); lia.
Qed.

(** *** Suggestions *)

Lemma insertBySimilarity_keeps (c x : SitePage * Z) (l : list (SitePage * Z)) :
  In x (insertBySimilarity c l) <-> x = c \/ In x l.
Proof.
  induction l as [|y l IH]; simpl.
  - intuition congruence.
  - destruct (0 <? snd y - snd c)%Z; simpl; rewrite ?IH; intuition congruence.
Qed.

Lemma sortBySimilarity_keeps (x : SitePage * Z) (l : list (SitePage * Z)) :
  In x (sortBySimilarity l) <-> In x l.
Proof.
  induction l as [|c l IH]; simpl; [tauto|].
  rewrite insertBySimilarity_keeps, IH. intuition congruence.
Qed.

Lemma insertBySimilarity_length (c : SitePage * Z) (l : list (SitePage * Z)) :
  length (insertBySimilarity c l) = S (length l).
Proof.
  induction l as [|y l IH]; simpl; [reflexivity|].
  destruct (0 <? snd y - snd c)%Z; simpl; auto.
Qed.

Lemma insertBySimilarity_sorted (c : SitePage * Z) (l : list (SitePage * Z)) :
  StronglySorted scoreGe l -> StronglySorted scoreGe (insertBySimilarity c l).
Proof.
  induction 1 as [|y l Hs IH Hy]; simpl; [repeat constructor|].
  destruct (0 <? snd y - snd c)%Z eqn:E.
  - apply Z.ltb_lt in E. constructor; [assumption|].
    apply Forall_forall. intros x Hx. apply insertBySimilarity_keeps in Hx.
    destruct Hx as [->|Hx]; [unfold scoreGe; lia|].
    rewrite Forall_forall in Hy. auto.
  - apply Z.ltb_ge in E. constructor; [constructor; assumption|].
    constructor; [unfold scoreGe; lia|].
    eapply Forall_impl; [|exact Hy]. unfold scoreGe. intros; lia.
Qed.

Lemma sortBySimilarity_sorted (l : list (SitePage * Z)) :
  StronglySorted scoreGe (sortBySimilarity l).
Proof.
  induction l as [|c l IH]; simpl; [constructor|].
  apply insertBySimilarity_sorted. assumption.
Qed.

Lemma firstn_sorted {A} (R : A -> A -> Prop) (n : nat) (l : list A) :
  StronglySorted R l -> StronglySorted R (firstn n l).
Proof.
  intros H. revert n. induction H as [|x l Hs IH Hx]; intros [|n]; simpl;
    try constructor; auto.
  rewrite Forall_forall in *. intros y Hy. apply Hx.
  rewrite <- (firstn_skipn n l). apply in_or_app. auto.
Qed.

Lemma firstn_In {A} (n : nat) (l : list A) (x : A) :
  In x (firstn n l) -> In x l.
Proof.
  intros H. rewrite <- (firstn_skipn n l). apply in_or_app. auto.
Qed.

(** X19. The suggestions for a page are at most 10 pages of the
    catalog, none with the page's own URL, each with a similarity above
    30 to the first catalog page of that URL, ordered by decreasing
    similarity; a URL that is not in the catalog gets none. *)
Theorem getSuggestedLinksForPage_sound (e : SOTAInternalLinkEngine)
  (currentUrl : JS.str) :
  getSuggestedLinksForPage e currentUrl = map fst (scoredSuggestions e currentUrl)
  /\ length (getSuggestedLinksForPage e currentUrl) <= 10
  /\ StronglySorted scoreGe (scoredSuggestions e currentUrl)
  /\ (forall p s,
         In (p, s) (scoredSuggestions e currentUrl) ->
         In p (sitePages e) /\ url p <> currentUrl /\ (30 < s)%Z
         /\ exists current,
              find (fun q => JS.eqb (url q) currentUrl) (sitePages e)
              = Some current
              /\ s = calculatePageSimilarity current p)
  /\ (~ In currentUrl (map url (sitePages e)) ->
      getSuggestedLinksForPage e currentUrl = []).
Proof.
  unfold getSuggestedLinksForPage, scoredSuggestions.
  split; [reflexivity|]. rewrite length_map.
  destruct (find _ (sitePages e)) as [current|] eqn:Ef.
  - split; [apply firstn_le_length|].
    split; [apply firstn_sorted, sortBySimilarity_sorted|]. split.
    + intros p s H. apply firstn_In in H.
      apply (proj1 (sortBySimilarity_keeps _ _)) in H.
      apply filter_In in H. destruct H as [H Hs]. apply Z.ltb_lt in Hs.
      apply in_map_iff in H. destruct H as [q [Eq Hq]].
      apply filter_In in Hq. destruct Hq as [Hq Hu].
      injection Eq as -> <-. simpl in Hs.
      repeat split; try assumption.
      * intros Hurl. apply eqb_eq in Hurl. rewrite Hurl in Hu. discriminate.
      * exists current. auto.
    + intros Hn. exfalso. apply Hn. apply find_some in Ef.
      destruct Ef as [Hin He]. apply eqb_eq in He. rewrite <- He.
      apply in_map. assumption.
  - simpl. split; [lia|]. split; [constructor|]. split; [intros p s []|].
    reflexivity.
Qed.

(** *** Clusters *)

Lemma eqb_refl (a : JS.str) : JS.eqb a a = true.
Proof. apply eqb_eq. reflexivity. Qed.

Lemma eqb_neq (a b : JS.str) : JS.eqb a b = false <-> a <> b.
Proof.
  rewrite <- eqb_eq. destruct (JS.eqb a b); split; congruence.
Qed.

Lemma addToCluster_keys (clusters : list (JS.str * list SitePage))
  (cat : JS.str) (page : SitePage) :
  map fst (addToCluster clusters cat page)
  = if JS.has (map fst clusters) cat then map fst clusters
    else map fst clusters ++ [cat].
Proof.
  induction clusters as [|[k ps] cl IH]; simpl; [reflexivity|].
  unfold JS.has in *. simpl.
  destruct (JS.eqb k cat) eqn:E.
  - apply eqb_eq in E. subst. rewrite eqb_refl. reflexivity.
  - assert (JS.eqb cat k = false) as ->
      by (apply eqb_neq; apply eqb_neq in E; congruence).
    simpl. rewrite IH. destruct (existsb _ _); reflexivity.
Qed.

Lemma filter_snoc {A} (f : A -> bool) (l : list A) (x : A) :
  filter f (l ++ [x]) = filter f l ++ (if f x then [x] else []).
Proof. rewrite filter_app. reflexivity. Qed.

Lemma addToCluster_members (done : list SitePage) (page : SitePage)
  (clusters : list (JS.str * list SitePage)) :
  Forall (fun entry => snd entry = filter (inCategory (fst entry)) done)
    clusters ->
  NoDup (map fst clusters) ->
  (~ In (categoryOf page) (map fst clusters) ->
   filter (inCategory (categoryOf page)) done = []) ->
  Forall (fun entry =>
            snd entry = filter (inCategory (fst entry)) (done ++ [page]))
    (addToCluster clusters (categoryOf page) page).
Proof.
  induction 1 as [|entry cl Hk Hcl IH]; intros Hnd Hnew;
    [|destruct entry as [k ps]]; simpl.
  - constructor; [|constructor]. simpl. rewrite filter_snoc, Hnew by tauto.
    unfold inCategory. rewrite eqb_refl. reflexivity.
  - match goal with H : snd _ = _ |- _ => rename H into Hk' end.
    simpl in Hk', Hnd. apply NoDup_cons_iff in Hnd. destruct Hnd as [Hnk Hnd'].
    destruct (JS.eqb k (categoryOf page)) eqn:E.
    + apply eqb_eq in E. constructor.
      * simpl. rewrite filter_snoc, <- Hk'. unfold inCategory.
        rewrite <- E, eqb_refl. reflexivity.
      * rewrite Forall_forall in *. intros [k' ps'] Hin.
        specialize (Hcl _ Hin). simpl in *.
        rewrite filter_snoc, <- Hcl. unfold inCategory.
        destruct (JS.eqb (categoryOf page) k') eqn:E';
          [|rewrite app_nil_r; reflexivity].
        apply eqb_eq in E'. exfalso. apply Hnk. rewrite E, E'.
        apply (in_map fst) in Hin. exact Hin.
    + apply eqb_neq in E. constructor.
      * simpl. rewrite filter_snoc, <- Hk'. unfold inCategory.
        destruct (JS.eqb (categoryOf page) k) eqn:E';
          [|rewrite app_nil_r; reflexivity].
        apply eqb_eq in E'. congruence.
      * apply IH; [assumption|]. intros Hn. apply Hnew. simpl. tauto.
Qed.

Lemma addToCluster_inv (done : list SitePage) (page : SitePage)
  (clusters : list (JS.str * list SitePage)) :
  clustersOf done clusters ->
  clustersOf (done ++ [page]) (addToCluster clusters (categoryOf page) page).
Proof.
  intros (Hnd & Hkeys & Hmem).
  assert (~ In (categoryOf page) (map fst clusters) ->
          filter (inCategory (categoryOf page)) done = []) as Hnew.
  { intros Hn. destruct (filter _ done) as [|q qs] eqn:E; [reflexivity|].
    exfalso. apply Hn. apply Hkeys.
    assert (In q (filter (inCategory (categoryOf page)) done)) as Hq
      by (rewrite E; left; reflexivity).
    apply filter_In in Hq. destruct Hq as [Hq Hc]. apply eqb_eq in Hc.
    rewrite <- Hc. apply in_map. assumption. }
  split; [|split].
  - rewrite addToCluster_keys.
    destruct (JS.has (map fst clusters) (categoryOf page)) eqn:E;
      [assumption|].
    apply has_false in E. apply NoDup_snoc; assumption.
  - intros c. rewrite addToCluster_keys, map_app, in_app_iff. simpl.
    destruct (JS.has (map fst clusters) (categoryOf page)) eqn:E.
    + apply has_In in E. rewrite Hkeys. split; [auto|].
      intros [H|[<-|[]]]; [assumption|]. apply Hkeys. assumption.
    + rewrite in_app_iff, Hkeys. simpl. tauto.
  - apply addToCluster_members; assumption.
Qed.

Lemma identify_fold (pages : list SitePage) :
  forall done clusters,
    clustersOf done clusters ->
    clustersOf (done ++ pages)
      (fold_left (fun cl page => addToCluster cl (categoryOf page) page)
         pages clusters).
Proof.
  induction pages as [|p pages IH]; intros done clusters H; simpl.
  - rewrite app_nil_r. assumption.
  - replace (done ++ p :: pages) with ((done ++ [p]) ++ pages)
      by (rewrite <- app_assoc; reflexivity).
    apply IH. apply addToCluster_inv. assumption.
Qed.

(** X20. The clusters partition the catalog by category (["general"]
    for a page without one): the keys are distinct and are exactly the
    categories that occur, and each cluster holds exactly the pages of
    its category, in catalog order. *)
Theorem identifyTopicClusters_partition (e : SOTAInternalLinkEngine) :
  NoDup (map fst (identifyTopicClusters e))
  /\ (forall c, In c (map fst (identifyTopicClusters e))
                <-> In c (map categoryOf (sitePages e)))
  /\ Forall (fun entry =>
               snd entry = filter (inCategory (fst entry)) (sitePages e))
       (identifyTopicClusters e).
Proof.
  apply (identify_fold (sitePages e) [] []).
  split; [constructor|]. split; [tauto | constructor].
Qed.

End ContextualFacts.

Module CleanFacts.
Import Contextual.

Lemma isAlnum_not_space (c : ascii) : isAlnum c = true -> JS.isSpace c = false.
Proof. destruct c as [[] [] [] [] [] [] [] []]; vm_compute; congruence. Qed.

Lemma dropNonAlnum_head (s : JS.str) : headIs isAlnum (dropNonAlnum s).
Proof.
  induction s as [|c s IH]; simpl; [exact I|].
  destruct (isAlnum c) eqn:E; [exact E | exact IH].
Qed.

Lemma dropNonAlnum_fixed (s : JS.str) : headIs isAlnum s -> dropNonAlnum s = s.
Proof. destruct s as [|c s]; simpl; [reflexivity|]. intros ->. reflexivity. Qed.

Lemma dropNonAlnum_suffix (s : JS.str) : exists x, s = x ++ dropNonAlnum s.
Proof.
  induction s as [|c s [x IH]]; simpl; [exists []; reflexivity|].
  destruct (isAlnum c).
  - exists []. reflexivity.
  - exists (c :: x). simpl. f_equal. assumption.
Qed.

Lemma core_ends (s : JS.str) :
  headIs isAlnum (core s) /\ headIs isAlnum (rev (core s)).
Proof.
  unfold core. rewrite rev_involutive. split; [|apply dropNonAlnum_head].
  pose proof (dropNonAlnum_head s) as Hh.
  destruct (dropNonAlnum_suffix (rev (dropNonAlnum s))) as [x Hx].
  apply (f_equal (@rev ascii)) in Hx. rewrite rev_involutive, rev_app_distr in Hx.
  destruct (rev (dropNonAlnum (rev (dropNonAlnum s)))) as [|c t]; [exact I|].
  rewrite Hx in Hh. exact Hh.
Qed.

Lemma core_fixed (s : JS.str) :
  headIs isAlnum s -> headIs isAlnum (rev s) -> core s = s.
Proof.
  intros H1 H2. unfold core.
  rewrite (dropNonAlnum_fixed s H1), (dropNonAlnum_fixed _ H2).
  apply rev_involutive.
Qed.

Lemma collapseSpaces_cons (c : ascii) (t : JS.str) :
  JS.isSpace c = false -> collapseSpaces (c :: t) = c :: collapseSpaces t.
Proof. intros H. simpl. rewrite H. reflexivity. Qed.

Lemma collapseSpaces_single (s : JS.str) : singleSpaced (collapseSpaces s) = true.
Proof.
  induction s as [|c s IH]; [reflexivity|].
  cbn [collapseSpaces]. destruct (JS.isSpace c) eqn:E.
  - destruct s as [|c' s']; [reflexivity|].
    destruct (JS.isSpace c') eqn:E'; [assumption|].
    rewrite (collapseSpaces_cons c' s' E') in *.
    cbn [singleSpaced] in *. rewrite E' in *. simpl in *. assumption.
  - cbn [singleSpaced]. rewrite E, IH. reflexivity.
Qed.

Lemma singleSpaced_fixed (s : JS.str) :
  singleSpaced s = true -> collapseSpaces s = s.
Proof.
  induction s as [|c s IH]; [reflexivity|].
  cbn [singleSpaced collapseSpaces]. destruct (JS.isSpace c) eqn:E.
  - rewrite !andb_true_iff, Ascii.eqb_eq. intros [[-> Hn] Hs].
    destruct s as [|c' s']; [reflexivity|].
    apply negb_true_iff in Hn. rewrite Hn. f_equal. auto.
  - simpl. intros Hs. f_equal. auto.
Qed.

Lemma collapseSpaces_head (s : JS.str) :
  headIs isAlnum s -> headIs isAlnum (collapseSpaces s).
Proof.
  destruct s as [|c s]; [auto|]. intros H. simpl in H.
  rewrite collapseSpaces_cons by (apply isAlnum_not_space; assumption).
  exact H.
Qed.

Lemma collapseSpaces_last (x : JS.str) (c : ascii) :
  JS.isSpace c = false ->
  exists y, collapseSpaces (x ++ [c]) = y ++ [c].
Proof.
  intros Hc. induction x as [|a x [y IH]].
  - exists []. simpl. rewrite Hc. reflexivity.
  - change ((a :: x) ++ [c]) with (a :: (x ++ [c])).
    cbn [collapseSpaces]. destruct (JS.isSpace a).
    + destruct (x ++ [c]) as [|c' t] eqn:Ex; [destruct x; discriminate|].
      rewrite IH. destruct (JS.isSpace c').
      * exists y. reflexivity.
      * exists (" "%char :: y). reflexivity.
    + rewrite IH. exists (a :: y). reflexivity.
Qed.

Lemma collapseSpaces_rev_head (s : JS.str) :
  headIs isAlnum (rev s) -> headIs isAlnum (rev (collapseSpaces s)).
Proof.
  destruct (rev s) as [|c t] eqn:E; intros H.
  - apply (f_equal (@rev ascii)) in E. rewrite rev_involutive in E. subst s.
    exact I.
  - apply (f_equal (@rev ascii)) in E. rewrite rev_involutive in E. subst s.
    simpl in *. destruct (collapseSpaces_last (rev t) c) as [y Hy];
      [apply isAlnum_not_space; assumption|].
    rewrite Hy, rev_app_distr. exact H.
Qed.

Lemma trim_fixed (s : JS.str) :
  headIs isAlnum s -> headIs isAlnum (rev s) -> JS.trim s = s.
Proof.
  intros H1 H2. unfold JS.trim.
  assert (forall x, headIs isAlnum x -> JS.dropSpaces x = x) as Hd.
  { intros [|c x]; simpl; [reflexivity|]. intros Hc.
    rewrite (isAlnum_not_space c Hc). reflexivity. }
  rewrite (Hd s H1), (Hd _ H2). apply rev_involutive.
Qed.

Lemma cleanAnchorText_eq (s : JS.str) :
  cleanAnchorText s = collapseSpaces (core s).
Proof.
  unfold cleanAnchorText. fold (core s). destruct (core_ends s) as [H1 H2].
  apply trim_fixed; [apply collapseSpaces_head | apply collapseSpaces_rev_head];
    assumption.
Qed.

(** X21. Cleaned anchor text is empty or starts and ends with a letter
    or a digit, its white space is single space characters, and
    cleaning it again changes nothing. *)
Theorem cleanAnchorText_clean (s : JS.str) :
  headIs isAlnum (cleanAnchorText s)
  /\ headIs isAlnum (rev (cleanAnchorText s))
  /\ singleSpaced (cleanAnchorText s) = true
  /\ cleanAnchorText (cleanAnchorText s) = cleanAnchorText s.
Proof.
  destruct (core_ends s) as [H1 H2].
  assert (headIs isAlnum (cleanAnchorText s)) as Ha
    by (rewrite cleanAnchorText_eq; apply collapseSpaces_head; assumption).
  assert (headIs isAlnum (rev (cleanAnchorText s))) as Hb
    by (rewrite cleanAnchorText_eq; apply collapseSpaces_rev_head; assumption).
  assert (singleSpaced (cleanAnchorText s) = true) as Hc
    by (rewrite cleanAnchorText_eq; apply collapseSpaces_single).
  repeat split; try assumption.
  rewrite (cleanAnchorText_eq (cleanAnchorText s)).
  rewrite (core_fixed _ Ha Hb). apply singleSpaced_fixed. assumption.
Qed.

Example cleanAnchorText_example :
  cleanAnchorText ("  -- the  quick," ++ "009"%char :: "brown fox!? ")
  = "the quick, brown fox".
Proof. vm_compute. reflexivity. Qed.

End CleanFacts.
